(** * Universe: the store orchestration layer of the server

    A shallow embedding of the four route handlers of the Universe server
    ([POST /emit], [POST /resonate], [DELETE /thing/:universe/:id],
    [DELETE /universe/:universe]) together with the helpers [getIndex] and
    [getVector] they share.

    The handlers run against three collaborators that are not part of the
    repository; each is given an explicit model:
    - the embedding provider (the OpenAI client), an oracle that answers the
      n-th call made by the process;
    - the vector index (the [LocalIndex] class of the vectra package), a
      handle that caches the items of the [index.json] file stored in the
      directory of the universe;
    - the file system below [config.dataDir], a finite map from directory
      names to directories.

    The [universes] registry is a plain JavaScript object, so reading
    [universes[name]] also finds the properties inherited from
    [Object.prototype]; the model keeps that. *)

From Stdlib Require Import ZArith Ascii.
From stdpp Require Import gmap strings list fin_maps sorting.

(** ** Universe names *)

(** One character of the class [[a-zA-Z0-9_]]. *)
Definition word_char (c : ascii) : bool :=
  let n := Ascii.nat_of_ascii c in
  ((48 <=? n) && (n <=? 57)) || ((65 <=? n) && (n <=? 90))
  || ((97 <=? n) && (n <=? 122)) || (n =? 95).

Fixpoint all_word_chars (s : string) : bool :=
  match s with
  | EmptyString => true
  | String c s' => word_char c && all_word_chars s'
  end.

(** [/^[a-zA-Z0-9_]+$/.test(universe)] *)
Definition universe_name_ok (universe : string) : bool :=
  negb (bool_decide (universe = "")) && all_word_chars universe.

(** JavaScript truthiness of an optional string: [undefined] and the empty
    string are falsy. *)
Definition truthy (s : option string) : bool :=
  match s with
  | Some s => negb (bool_decide (s = ""))
  | None => false
  end.

(** The names every object literal inherits from [Object.prototype]; each
    of them matches the universe name pattern. *)
Definition Object_prototype_keys : list string :=
  [ "constructor"; "__proto__"; "hasOwnProperty"; "isPrototypeOf";
    "propertyIsEnumerable"; "toLocaleString"; "toString"; "valueOf";
    "__defineGetter__"; "__defineSetter__"; "__lookupGetter__";
    "__lookupSetter__" ].

Definition inherited (name : string) : bool :=
  bool_decide (name ∈ Object_prototype_keys).

(** ** The bearer token check *)

(** [s.startsWith(prefix)] *)
Fixpoint startsWith (s prefix : string) {struct prefix} : bool :=
  match prefix, s with
  | EmptyString, _ => true
  | String p prefix', String c s' => bool_decide (c = p) && startsWith s' prefix'
  | String _ _, EmptyString => false
  end.

(** [s.split(' ')]: the pieces of [s] between single spaces; never empty. *)
Fixpoint split_spaces (s : string) : list string :=
  match s with
  | EmptyString => [EmptyString]
  | String c rest =>
      if bool_decide (c = " "%char) then EmptyString :: split_spaces rest
      else match split_spaces rest with
           | piece :: pieces => String c piece :: pieces
           | [] => [String c EmptyString]
           end
  end.

(** What [authenticateBearerToken] does with a request: it calls [next()],
    or answers 401 with the code [ERR_NO_AUTH_TOKEN], or answers 403 with
    the code [ERR_INVALID_AUTH_TOKEN]. *)
Inductive Verdict :=
  | next
  | ERR_NO_AUTH_TOKEN
  | ERR_INVALID_AUTH_TOKEN.

(** [authenticateBearerToken], on the value of [req.headers.authorization]
    ([None] when the header is missing). *)
Definition authenticateBearerToken (bearerToken : string)
    (authorization : option string) : Verdict :=
  let authHeader := default "" authorization in
  if negb (truthy authorization) || negb (startsWith authHeader "Bearer ") then
    ERR_NO_AUTH_TOKEN
  else if negb (bool_decide (split_spaces authHeader !! 1 = Some bearerToken)) then
    ERR_INVALID_AUTH_TOKEN
  else next.

(** The string holds no space. *)
Fixpoint spaceless (s : string) : bool :=
  match s with
  | EmptyString => true
  | String c rest => negb (bool_decide (c = " "%char)) && spaceless rest
  end.

(** ** Request bodies *)

(** An element of [things] (or [thing]) as it arrives: [raw_text] is [None]
    when the object has no [text] key. *)
Record RawThing := { raw_text : option string; raw_id : option string }.

(** [{ text: string; id?: string }] *)
Record Thing := { text : string; id : option string }.

(** [typeof t === 'object' && 'text' in t] *)
Definition has_text (t : RawThing) : bool :=
  match raw_text t with Some _ => true | None => false end.

Definition as_thing (t : RawThing) : option Thing :=
  match raw_text t with
  | Some s => Some {| text := s; id := raw_id t |}
  | None => None
  end.

Module EmitBody.
Record t := {
  universe : option string;
  thing : option RawThing;
  things : option (list RawThing);
  replace : option string }.
End EmitBody.

Module ResonateBody.
Record t := {
  universe : option string;
  thing : option string;
  reach : option Z }.
End ResonateBody.

(** ** Exceptions *)

Inductive Exception :=
  | ProviderError                 (* api.embeddings.create rejected *)
  | TypeError                     (* a method the receiver does not have *)
  | IndexError (message : string) (* an Error thrown by the index *)
  | FsError (code : string).      (* ENOENT, ENOTEMPTY *)

Inductive Outcome (A : Type) :=
  | Return (a : A)
  | Throw (e : Exception).
Arguments Return {A} a.
Arguments Throw {A} e.

(** A concrete provider and similarity, used to run the handlers. *)
Module Demo.
(** The provider rejects the text ["boom"] and embeds any other text as
    its length. *)
Definition embedding (_ : nat) (s : string) : option nat :=
  if bool_decide (s = "boom") then None else Some (String.length s).

Fixpoint v4 (n : nat) : string :=
  match n with
  | O => "uuid"
  | S n => String "u"%char (v4 n)
  end.

Definition similarity (a b : nat) : Z := (- Z.abs (Z.of_nat a - Z.of_nat b))%Z.

Definition closer (a b : Z) : bool := (b <? a)%Z.

(** The batch provider rejects a batch that holds ["boom"] and embeds the
    texts of any other batch as their lengths. *)
Definition getEmbeddings (_ : nat) (texts : list string) : option (list nat) :=
  if bool_decide ("boom" ∈ texts) then None else Some (String.length <$> texts).
End Demo.

Section Universe.
Context {vector score : Type}.

(** The answer of the provider to the n-th embedding request made by the
    process: [None] when the request is rejected. *)
Variable embedding : nat -> string -> option vector.
(** The n-th identifier drawn by the index ([v4()] of the uuid package). *)
Variable v4 : nat -> string.
(** The score of a stored vector against the query vector, and the strict
    order that ranks the scores ([closer a b]: [a] ranks before [b]). *)
Variable similarity : vector -> vector -> score.
Variable closer : score -> score -> bool.
(** The answer of the batch provider of the revised server to the n-th
    request made by the process: one vector per text when it keeps its
    contract, [None] when the request is rejected. *)
Variable getEmbeddings : nat -> list string -> option (list vector).

(** ** Data model *)

(** One record of [index.json]: [{ id, vector, metadata: { text } }]. *)
Record IndexItem := {
  item_id : string;
  item_vector : vector;
  item_text : string }.

(** A directory below [config.dataDir]; [index_json] is [None] when the
    directory holds no [index.json], that is, when it is empty. *)
Record Directory := { index_json : option (list IndexItem) }.

(** A [LocalIndex] object: [cached] is its [_data] field, filled by the
    first read of [index.json] and kept up to date by every write.  The
    object is taken with no update in progress: an update that a refused
    insertion leaves open is not part of the model. *)
Record LocalIndex := { cached : option (list IndexItem) }.

(** The state of the process and of its data directory. *)
Record World := {
  universes : gmap string LocalIndex;   (* own properties of [universes] *)
  dataDir : gmap string Directory;      (* path.join(config.dataDir, name) *)
  api_calls : nat;                      (* embedding requests made so far *)
  uuid_draws : nat }.                   (* identifiers drawn so far *)

Definition set_universes (f : gmap string LocalIndex -> gmap string LocalIndex)
    (w : World) : World :=
  {| universes := f (universes w); dataDir := dataDir w;
     api_calls := api_calls w; uuid_draws := uuid_draws w |}.

(** The server right after start on an empty data directory. *)
Definition fresh : World :=
  {| universes := ∅; dataDir := ∅; api_calls := 0; uuid_draws := 0 |}.

(** The records of a universe, as stored in its [index.json]. *)
Definition things_of (w : World) (universe : string) : list IndexItem :=
  match dataDir w !! universe with
  | Some {| index_json := Some items |} => items
  | _ => []
  end.

Definition ids_of (w : World) (universe : string) : list string :=
  item_id <$> things_of w universe.

(** The universe has been created: its directory holds an [index.json]. *)
Definition created (w : World) (universe : string) : bool :=
  match dataDir w !! universe with
  | Some {| index_json := Some _ |} => true
  | _ => false
  end.

(** ** Asynchronous code: state passing with exceptions

    The state survives an exception: what was written before a [throw]
    stays written. *)
Definition Async (A : Type) : Type := World -> World * Outcome A.

Definition ret {A} (a : A) : Async A := fun w => (w, Return a).
Definition throw {A} (e : Exception) : Async A := fun w => (w, Throw e).
Definition bind {A B} (m : Async A) (k : A -> Async B) : Async B :=
  fun w =>
    match m w with
    | (w', Return a) => k a w'
    | (w', Throw e) => (w', Throw e)
    end.
Definition try_catch {A} (m : Async A) (handler : Exception -> Async A) : Async A :=
  fun w =>
    match m w with
    | (w', Return a) => (w', Return a)
    | (w', Throw e) => handler e w'
    end.

Notation "'let*' x ':=' m 'in' k" := (bind m (fun x => k))
  (at level 10, x name, m at level 100, k at level 200).
Notation "'await' m 'in' k" := (bind m (fun _ => k))
  (at level 10, m at level 100, k at level 200).

(** [await Promise.all(tasks)]: every task runs to completion whether or
    not another one is rejected; the result is rejected with the first
    rejection.  The tasks are run one after the other in array order.

    In the server the tasks of one call are started together and their
    steps follow one another in an order that depends on when the
    provider and the file system answer; [Promise_all] is the run in
    which each task is finished before the next one starts.  For a list
    of at most one task there is no other run.  What is proved below of
    a call of several things is what does not depend on the order of the
    steps; a result that depends on it is stated for calls of at most one
    thing. *)
Fixpoint Promise_all (tasks : list (Async unit)) : Async unit :=
  match tasks with
  | [] => ret tt
  | task :: rest =>
      fun w =>
        match task w with
        | (w', Return _) => Promise_all rest w'
        | (w', Throw e) => (fst (Promise_all rest w'), Throw e)
        end
  end.

(** ** The vector index (vectra's LocalIndex) *)

(** What [universes[name]] evaluates to. *)
Inductive Property :=
  | Own (index : LocalIndex)
  | Inherited            (* a member of Object.prototype: truthy, no index *)
  | Undefined.

Definition universes_get (w : World) (name : string) : Property :=
  match universes w !! name with
  | Some index => Own index
  | None => if inherited name then Inherited else Undefined
  end.

(** The value held by the variable [index] of a handler. *)
Inductive IndexRef :=
  | TheIndex (name : string)   (* the LocalIndex registered under [name] *)
  | NotAnIndex.                (* an inherited property of [universes] *)

(** A method of [LocalIndex]: it runs on the folder name, the object and
    the data directory. *)
Definition Method (A : Type) : Type :=
  string -> LocalIndex -> gmap string Directory ->
  LocalIndex * gmap string Directory * Outcome A.

(** [index.method(...)]: the object is updated in place, so the registry
    sees the update.  A handler calls the methods of the object that
    [getIndex] has just returned, which is the one registered under the
    name; a value that is not a [LocalIndex] has no such method. *)
Definition call {A} (index : IndexRef) (method : Method A) : Async A :=
  fun w =>
    match index with
    | NotAnIndex => (w, Throw TypeError)
    | TheIndex name =>
        match universes w !! name with
        | None => (w, Throw TypeError)
        | Some object =>
            let '(object', disk', r) := method name object (dataDir w) in
            ({| universes := <[name := object']> (universes w);
                dataDir := disk';
                api_calls := api_calls w; uuid_draws := uuid_draws w |}, r)
        end
    end.

Definition isIndexCreated (folder : string) (disk : gmap string Directory) : bool :=
  match disk !! folder with
  | Some {| index_json := Some _ |} => true
  | _ => false
  end.

(** [createIndex()]: creates the folder if needed and writes an empty
    [index.json]. *)
Definition createIndex : Method unit :=
  fun folder object disk =>
    if isIndexCreated folder disk
    then (object, disk, Throw (IndexError "Index already exists"))
    else ({| cached := Some [] |},
          <[folder := {| index_json := Some [] |}]> disk, Return tt).

Definition loadIndexData : Method (list IndexItem) :=
  fun folder object disk =>
    match cached object with
    | Some items => (object, disk, Return items)
    | None =>
        match disk !! folder with
        | Some {| index_json := Some items |} =>
            ({| cached := Some items |}, disk, Return items)
        | _ => (object, disk, Throw (IndexError "Index does not exist"))
        end
    end.

(** The end of an update: [index.json] is rewritten and the cache follows. *)
Definition saveIndex (items : list IndexItem) : Method unit :=
  fun folder object disk =>
    match disk !! folder with
    | Some _ =>
        ({| cached := Some items |},
         <[folder := {| index_json := Some items |}]> disk, Return tt)
    | None => (object, disk, Throw (IndexError "Error saving index"))
    end.

Definition has_id (id : string) (item : IndexItem) : bool :=
  bool_decide (item_id item = id).

(** [items.splice(items.findIndex(i => i.id === id), 1)] when found. *)
Fixpoint splice_id (id : string) (items : list IndexItem) : list IndexItem :=
  match items with
  | [] => []
  | item :: rest =>
      if has_id id item then rest else item :: splice_id id rest
  end.

Definition listItems (index : IndexRef) : Async (list IndexItem) :=
  call index loadIndexData.

Definition deleteItem (index : IndexRef) (id : string) : Async unit :=
  let* items := call index loadIndexData in
  call index (saveIndex (splice_id id items)).

Definition draw_v4 : Async string :=
  fun w =>
    ({| universes := universes w; dataDir := dataDir w;
        api_calls := api_calls w; uuid_draws := S (uuid_draws w) |},
     Return (v4 (uuid_draws w))).

(** [insertItem({ id, vector, metadata: { text } })]: the id defaults to
    a drawn one, and an id already in the index is refused. *)
Definition insertItem (index : IndexRef) (id : option string)
    (vector : vector) (text : string) : Async unit :=
  let* items := call index loadIndexData in
  let* id := match id with Some id => ret id | None => draw_v4 end in
  if existsb (has_id id) items
  then throw (IndexError "Item already exists")
  else call index
         (saveIndex (items ++ [{| item_id := id; item_vector := vector;
                                  item_text := text |}])).

(** One query result: [{ item, score }]. *)
Record Scored := { scored_item : IndexItem; scored_score : score }.

Fixpoint rank_insert (x : Scored) (ranked : list Scored) : list Scored :=
  match ranked with
  | [] => [x]
  | y :: rest =>
      if closer (scored_score x) (scored_score y)
      then x :: y :: rest
      else y :: rank_insert x rest
  end.

(** [distances.sort((a, b) => b.distance - a.distance)], a stable sort. *)
Definition rank (l : list Scored) : list Scored :=
  fold_left (fun ranked x => rank_insert x ranked) l [].

Definition queryItems (index : IndexRef) (query : vector) (topK : nat)
    : Async (list Scored) :=
  let* items := call index loadIndexData in
  ret (take topK
         (rank ((fun item =>
                   {| scored_item := item;
                      scored_score := similarity query (item_vector item) |})
                <$> items))).

(** ** HTTP replies *)

Inductive ErrorMessage :=
  | Universe_is_required
  | Invalid_universe_name
  | Cannot_provide_both_thing_and_things
  | Things_must_be_an_array_of_objects_with_text
  | Thing_must_be_an_object_with_text
  | Thing_is_required
  | Reach_must_be_a_positive_integer
  | ID_is_required
  | Universe_not_found
  | Internal_server_error.

(** One element of [results]: [{ closeness, thing, id }]. *)
Record Match := {
  match_closeness : score;
  match_thing : string;
  match_id : string }.

Inductive Json :=
  | success                               (* { status: 'success' } *)
  | success_results (results : list Match) (* { status: 'success', results } *)
  | error (message : ErrorMessage).       (* { error: message } *)

Record Reply := { status : nat; json : Json }.

(** [res.status(code).json(body); return] *)
Definition respond (code : nat) (body : Json) : Async Reply :=
  ret {| status := code; json := body |}.

(** The [try { ... } catch (error) { ... }] around the body of a route:
    whatever is thrown is logged and answered with status 500. *)
Definition handler (route : Async Reply) : World -> World * Reply :=
  fun w =>
    match route w with
    | (w', Return reply) => (w', reply)
    | (w', Throw _) => (w', {| status := 500; json := error Internal_server_error |})
    end.

(** The ids a reply reports. *)
Definition reply_ids (r : Reply) : list string :=
  match json r with
  | success_results results => match_id <$> results
  | _ => []
  end.

(** ** Helpers of the server *)

(** [getIndex]: get or create the index of a universe. *)
Definition getIndex (universe : string) : Async IndexRef :=
  fun w =>
    match universes_get w universe with
    | Own _ => (w, Return (TheIndex universe))
    | Inherited => (w, Return NotAnIndex)
    | Undefined =>
        let index := {| cached := None |} in
        let '(index, disk, r) :=
          if negb (isIndexCreated universe (dataDir w))
          then createIndex universe index (dataDir w)
          else (index, dataDir w, Return tt) in
        match r with
        | Return _ =>
            ({| universes := <[universe := index]> (universes w);
                dataDir := disk;
                api_calls := api_calls w; uuid_draws := uuid_draws w |},
             Return (TheIndex universe))
        | Throw e =>
            ({| universes := universes w; dataDir := disk;
                api_calls := api_calls w; uuid_draws := uuid_draws w |},
             Throw e)
        end
    end.

(** [getVector]: one embedding request; a rejection is logged and thrown
    again. *)
Definition getVector (text : string) : Async vector :=
  fun w =>
    let w' := {| universes := universes w; dataDir := dataDir w;
                 api_calls := S (api_calls w); uuid_draws := uuid_draws w |} in
    match embedding (api_calls w) text with
    | Some v => (w', Return v)
    | None => (w', Throw ProviderError)
    end.

(** ** POST /emit *)

Definition insertThing (index : IndexRef) (t : Thing) : Async unit :=
  let* vector := getVector (text t) in
  if truthy (id t) then
    let id := default "" (id t) in
    let* items := listItems index in
    await (if existsb (has_id id) items then deleteItem index id else ret tt) in
    insertItem index (Some id) vector (text t)
  else
    insertItem index None vector (text t).

Definition emit (body : EmitBody.t) : World -> World * Reply :=
  let universe := default "" (EmitBody.universe body) in
  let thing := EmitBody.thing body in
  let things := EmitBody.things body in
  let replace := EmitBody.replace body in
  handler
    (if negb (truthy (EmitBody.universe body)) then
       respond 400 (error Universe_is_required)
     else if negb (universe_name_ok universe) then
       respond 400 (error Invalid_universe_name)
     else if bool_decide (is_Some thing) && bool_decide (is_Some things) then
       respond 400 (error Cannot_provide_both_thing_and_things)
     else if negb (forallb has_text (default [] things)) then
       respond 400 (error Things_must_be_an_array_of_objects_with_text)
     else if negb (from_option has_text true thing) then
       respond 400 (error Thing_must_be_an_object_with_text)
     else
       let* index := getIndex universe in
       await match things, thing with
             | Some things, _ =>
                 Promise_all (insertThing index <$> omap as_thing things)
             | None, Some thing =>
                 from_option (insertThing index) (ret tt) (as_thing thing)
             | None, None => ret tt
             end in
       await (if truthy replace
              then deleteItem index (default "" replace) else ret tt) in
       respond 200 success).

(** ** POST /resonate *)

Definition resonate (body : ResonateBody.t) : World -> World * Reply :=
  let universe := default "" (ResonateBody.universe body) in
  let reach := ResonateBody.reach body in
  handler
    (if negb (truthy (ResonateBody.universe body)) then
       respond 400 (error Universe_is_required)
     else if negb (universe_name_ok universe) then
       respond 400 (error Invalid_universe_name)
     else if negb (truthy (ResonateBody.thing body)) then
       respond 400 (error Thing_is_required)
     else if from_option (fun reach => (reach <? 1)%Z) false reach then
       respond 400 (error Reach_must_be_a_positive_integer)
     else
       let* index := getIndex universe in
       let* query := getVector (default "" (ResonateBody.thing body)) in
       let* results := queryItems index query (Z.to_nat (default 10%Z reach)) in
       respond 200
         (success_results
            ((fun x => {| match_closeness := scored_score x;
                          match_thing := item_text (scored_item x);
                          match_id := item_id (scored_item x) |})
             <$> results))).

(** ** DELETE /thing/:universe/:id *)

Definition deleteThing (universe id : string) : World -> World * Reply :=
  handler
    (if bool_decide (universe = "") then
       respond 400 (error Universe_is_required)
     else if negb (universe_name_ok universe) then
       respond 400 (error Invalid_universe_name)
     else if bool_decide (id = "") then
       respond 400 (error ID_is_required)
     else
       let* index := getIndex universe in
       await deleteItem index id in
       respond 200 success).

(** ** DELETE /universe/:universe *)

(** [delete universes[universe]] *)
Definition delete_universes (universe : string) : Async unit :=
  fun w =>
    ({| universes := delete universe (universes w); dataDir := dataDir w;
        api_calls := api_calls w; uuid_draws := uuid_draws w |}, Return tt).

(** [fs.rmdirSync(path)]: removes an empty directory; a missing directory
    and a directory that still holds a file are errors. *)
Definition rmdirSync (folder : string) : Async unit :=
  fun w =>
    match dataDir w !! folder with
    | None => (w, Throw (FsError "ENOENT"))
    | Some {| index_json := Some _ |} => (w, Throw (FsError "ENOTEMPTY"))
    | Some {| index_json := None |} =>
        ({| universes := universes w; dataDir := delete folder (dataDir w);
            api_calls := api_calls w; uuid_draws := uuid_draws w |}, Return tt)
    end.

Definition deleteUniverse (universe : string) : World -> World * Reply :=
  handler
    (if bool_decide (universe = "") then
       respond 400 (error Universe_is_required)
     else if negb (universe_name_ok universe) then
       respond 400 (error Invalid_universe_name)
     else
       try_catch
         (await delete_universes universe in
          await rmdirSync universe in
          respond 200 success)
         (fun _ => respond 404 (error Universe_not_found))).

(** ** The four operations as one step function *)

Inductive Request :=
  | Emit (body : EmitBody.t)
  | Resonate (body : ResonateBody.t)
  | DeleteThing (universe id : string)
  | DeleteUniverse (universe : string).

Definition serve (req : Request) : World -> World * Reply :=
  match req with
  | Emit body => emit body
  | Resonate body => resonate body
  | DeleteThing universe id => deleteThing universe id
  | DeleteUniverse universe => deleteUniverse universe
  end.

(** The universe a request names. *)
Definition target (req : Request) : string :=
  match req with
  | Emit body => default "" (EmitBody.universe body)
  | Resonate body => default "" (ResonateBody.universe body)
  | DeleteThing universe _ => universe
  | DeleteUniverse universe => universe
  end.

(** ** Well-formed states

    The states in which every handle is in step with its file: a
    registered index is never filed under an inherited name, its
    directory holds an [index.json] and its cache, once filled, agrees
    with the file; the ids of one [index.json] are pairwise distinct; no
    directory bears an inherited name.  The fresh server is in such a
    state, and a call that runs its index operations one after the other
    leaves it in one. *)
Definition wf (w : World) : Prop :=
  (∀ name index, universes w !! name = Some index →
     ∃ items, dataDir w !! name = Some {| index_json := Some items |}
              ∧ (cached index = None ∨ cached index = Some items))
  ∧ (∀ name items, dataDir w !! name = Some {| index_json := Some items |} →
       NoDup (item_id <$> items))
  ∧ (∀ name, inherited name = true → dataDir w !! name = None).

(** No two records of one universe share an id: neither in an
    [index.json] nor among the items a [LocalIndex] holds in memory.
    Nothing is asked of how the file and the memory of a handle relate. *)
Definition distinct_ids (w : World) : Prop :=
  (∀ name items, dataDir w !! name = Some {| index_json := Some items |} →
     NoDup (item_id <$> items))
  ∧ (∀ name items, universes w !! name = Some {| cached := Some items |} →
       NoDup (item_id <$> items)).

(** [keeping I Q m]: a run of [m] from a state in [I] ends in [I], whether
    it returns or throws, and a returned value satisfies [Q]. *)
Definition keeping (I : World → Prop) {A} (Q : A → Prop) (m : Async A) : Prop :=
  ∀ w, I w → I (m w).1 ∧ ∀ a, (m w).2 = Return a → Q a.

(** A method of the index keeps the ids distinct, in the object and in
    every file, and returns a value that satisfies [Q]. *)
Definition keeps_distinct {A} (Q : A → Prop) (method : Method A) : Prop :=
  ∀ folder object disk,
    (∀ items, cached object = Some items → NoDup (item_id <$> items)) →
    (∀ name items, disk !! name = Some {| index_json := Some items |} →
       NoDup (item_id <$> items)) →
    (∀ items, cached (method folder object disk).1.1 = Some items →
       NoDup (item_id <$> items))
    ∧ (∀ name items,
         (method folder object disk).1.2 !! name
         = Some {| index_json := Some items |} →
         NoDup (item_id <$> items))
    ∧ ∀ a, (method folder object disk).2 = Return a → Q a.

(** The other universes are as they were: cached handle and directory. *)
Definition others_kept (universe : string) (w w' : World) : Prop :=
  ∀ other, other ≠ universe →
    universes w' !! other = universes w !! other
    ∧ dataDir w' !! other = dataDir w !! other.

(** The states a run passes through, written as updates of the state. *)
Definition loaded (universe : string) (w : World) : World :=
  set_universes (insert universe {| cached := Some (things_of w universe) |}) w.

Definition stored (universe : string) (items : list IndexItem) (w : World) : World :=
  {| universes := <[universe := {| cached := Some items |}]> (universes w);
     dataDir := <[universe := {| index_json := Some items |}]> (dataDir w);
     api_calls := api_calls w; uuid_draws := uuid_draws w |}.

Definition called (w : World) : World :=
  {| universes := universes w; dataDir := dataDir w;
     api_calls := S (api_calls w); uuid_draws := uuid_draws w |}.

Definition drawn (w : World) : World :=
  {| universes := universes w; dataDir := dataDir w;
     api_calls := api_calls w; uuid_draws := S (uuid_draws w) |}.

(** The state after [getIndex] on a name that is not inherited. *)
Definition opened (universe : string) (w : World) : World :=
  match universes w !! universe with
  | Some _ => w
  | None =>
      if created w universe
      then set_universes (insert universe {| cached := None |}) w
      else stored universe [] w
  end.

(** The record an insertion appends. *)
Definition new_item (id : string) (v : vector) (text : string) : IndexItem :=
  {| item_id := id; item_vector := v; item_text := text |}.

(** The index of [universe] is registered in a well-formed state. *)
Definition ready (universe : string) (w : World) : Prop :=
  wf w ∧ is_Some (universes w !! universe).

(** The registry and the data directory are as they were. *)
Definition same_store (w w' : World) : Prop :=
  universes w' = universes w ∧ dataDir w' = dataDir w.

(** The checks that [POST /emit] makes before it touches the index. *)
Definition emit_accepts (body : EmitBody.t) : bool :=
  truthy (EmitBody.universe body)
  && universe_name_ok (default "" (EmitBody.universe body))
  && negb (bool_decide (is_Some (EmitBody.thing body))
           && bool_decide (is_Some (EmitBody.things body)))
  && forallb has_text (default [] (EmitBody.things body))
  && from_option has_text true (EmitBody.thing body).

(** The things an accepted body asks to insert, in the order given. *)
Definition emit_items (body : EmitBody.t) : list Thing :=
  match EmitBody.things body, EmitBody.thing body with
  | Some things, _ => omap as_thing things
  | None, Some thing => from_option (λ t, [t]) [] (as_thing thing)
  | None, None => []
  end.

(** What [POST /emit] runs once the index is resolved. *)
Definition emit_on (index : IndexRef) (body : EmitBody.t) : Async Reply :=
  await Promise_all (insertThing index <$> emit_items body) in
  await (if truthy (EmitBody.replace body)
         then deleteItem index (default "" (EmitBody.replace body))
         else ret tt) in
  respond 200 success.

(** [POST /emit] on an accepted body, with the insertions of the call
    left open: [insertions index] stands for what the tasks of
    [Promise.all] do to the state, whatever the order of their steps. *)
Definition emit_with (insertions : IndexRef → Async unit) (body : EmitBody.t)
    : World → World * Reply :=
  handler
    (let* index := getIndex (default "" (EmitBody.universe body)) in
     await insertions index in
     await (if truthy (EmitBody.replace body)
            then deleteItem index (default "" (EmitBody.replace body))
            else ret tt) in
     respond 200 success).

(** The checks that [POST /resonate] makes before it touches the index. *)
Definition resonate_accepts (body : ResonateBody.t) : bool :=
  truthy (ResonateBody.universe body)
  && universe_name_ok (default "" (ResonateBody.universe body))
  && truthy (ResonateBody.thing body)
  && negb (from_option (λ reach, (reach <? 1)%Z) false (ResonateBody.reach body)).

(** The results [POST /resonate] reports for a query vector. *)
Definition matches (query : vector) (topK : nat) (items : list IndexItem) : list Match :=
  (λ x, {| match_closeness := scored_score x;
           match_thing := item_text (scored_item x);
           match_id := item_id (scored_item x) |})
  <$> take topK
        (rank ((λ item, {| scored_item := item;
                           scored_score := similarity query (item_vector item) |})
               <$> items)).

(** The state after [DELETE /universe/:universe] on a well-formed name. *)
Definition evicted (universe : string) (w : World) : World :=
  match dataDir w !! universe with
  | Some {| index_json := None |} =>
      {| universes := delete universe (universes w);
         dataDir := delete universe (dataDir w);
         api_calls := api_calls w; uuid_draws := uuid_draws w |}
  | _ => set_universes (delete universe) w
  end.

(** The checks a route makes before it touches the registry. *)
Definition accepts (req : Request) : bool :=
  match req with
  | Emit body => emit_accepts body
  | Resonate body => resonate_accepts body
  | DeleteThing universe id =>
      universe_name_ok universe && negb (bool_decide (id = ""))
  | DeleteUniverse universe => universe_name_ok universe
  end.

(** The state relation that holds of any two states. *)
Definition any_step (w w' : World) : Prop := True.

(** ** The middleware chain of [main]

    A request is given by what Express matches it with: the page route
    [app.get('/')], registered first; the CORS middleware, which answers
    every [OPTIONS] request; then [authenticateBearerToken]; then the four
    routes, or none of them.  The JSON body is taken as parsed. *)
Inductive Incoming :=
  | GetRoot                  (* GET / *)
  | Preflight                (* an OPTIONS request *)
  | ToRoute (req : Request)  (* a request one of the four routes matches *)
  | Unmatched.               (* any other request *)

Inductive Outgoing :=
  | UI_page                  (* 200, text/html, UI() *)
  | Status_200               (* res.sendStatus(200) *)
  | Status_401               (* ERR_NO_AUTH_TOKEN *)
  | Status_403               (* ERR_INVALID_AUTH_TOKEN *)
  | Status_404               (* no route matched *)
  | Routed (reply : Reply).

Definition app (bearerToken : string) (authorization : option string)
    (incoming : Incoming) : World -> World * Outgoing :=
  fun w =>
    match incoming with
    | GetRoot => (w, UI_page)
    | Preflight => (w, Status_200)
    | ToRoute _ | Unmatched =>
        match authenticateBearerToken bearerToken authorization with
        | ERR_NO_AUTH_TOKEN => (w, Status_401)
        | ERR_INVALID_AUTH_TOKEN => (w, Status_403)
        | next =>
            match incoming with
            | ToRoute req => let '(w', reply) := serve req w in (w', Routed reply)
            | _ => (w, Status_404)
            end
        end
    end.

(** ** The revised server

    The second version of the server (the one with embedding providers):
    its routes embed a whole batch in one request, insert the items one
    after the other, and remove a universe with [fs.promises.rm].  Its
    [getIndex] and its checks are those of the first version. *)

Inductive RevisedMessage :=
  | Common (message : ErrorMessage)
  | Either_thing_or_things_must_be_provided
  | Failed_to_delete_universe.

Inductive RevisedJson :=
  | revised_success
  | revised_success_results (results : list Match)
  | revised_error (message : RevisedMessage).

Record RevisedReply := { revised_status : nat; revised_json : RevisedJson }.

Definition revised_respond (code : nat) (body : RevisedJson) : Async RevisedReply :=
  ret {| revised_status := code; revised_json := body |}.

(** The [try { ... } catch (error) { ... }] around the body of a route. *)
Definition revised_handler (route : Async RevisedReply)
    : World -> World * RevisedReply :=
  fun w =>
    match route w with
    | (w', Return reply) => (w', reply)
    | (w', Throw _) =>
        (w', {| revised_status := 500;
                revised_json := revised_error (Common Internal_server_error) |})
    end.

(** [provider.getEmbeddings(texts)]: one request for the whole batch. *)
Definition provider_getEmbeddings (texts : list string) : Async (list vector) :=
  fun w =>
    let w' := {| universes := universes w; dataDir := dataDir w;
                 api_calls := S (api_calls w); uuid_draws := uuid_draws w |} in
    match getEmbeddings (api_calls w) texts with
    | Some vectors => (w', Return vectors)
    | None => (w', Throw ProviderError)
    end.

(** [insertItem] on a vector that may be [undefined]: the index refuses an
    item without a vector. *)
Definition insertItem_at (index : IndexRef) (id : option string)
    (vector : option vector) (text : string) : Async unit :=
  match vector with
  | Some vector => insertItem index id vector text
  | None =>
      await call index loadIndexData in
      throw (IndexError "Vector is required")
  end.

(** The loop [for (let i = 0; i < texts.length; i++)] of the revised
    [POST /emit], from index [i] on. *)
Fixpoint insert_each (index : IndexRef) (vectors : list vector) (i : nat)
    (things : list Thing) : Async unit :=
  match things with
  | [] => ret tt
  | t :: rest =>
      await (if truthy (id t) then
               let id := default "" (id t) in
               let* items := listItems index in
               await (if existsb (has_id id) items
                      then deleteItem index id else ret tt) in
               insertItem_at index (Some id) (vectors !! i) (text t)
             else
               insertItem_at index None (vectors !! i) (text t)) in
      insert_each index vectors (S i) rest
  end.

Definition revised_emit (body : EmitBody.t) : World -> World * RevisedReply :=
  let universe := default "" (EmitBody.universe body) in
  let thing := EmitBody.thing body in
  let things := EmitBody.things body in
  let replace := EmitBody.replace body in
  let store (things : list Thing) : IndexRef -> Async RevisedReply :=
    fun index =>
      let* vectors := provider_getEmbeddings (text <$> things) in
      await insert_each index vectors 0 things in
      await (if truthy replace
             then deleteItem index (default "" replace) else ret tt) in
      revised_respond 200 revised_success in
  revised_handler
    (if negb (truthy (EmitBody.universe body)) then
       revised_respond 400 (revised_error (Common Universe_is_required))
     else if negb (universe_name_ok universe) then
       revised_respond 400 (revised_error (Common Invalid_universe_name))
     else if bool_decide (is_Some thing) && bool_decide (is_Some things) then
       revised_respond 400
         (revised_error (Common Cannot_provide_both_thing_and_things))
     else if negb (forallb has_text (default [] things)) then
       revised_respond 400
         (revised_error (Common Things_must_be_an_array_of_objects_with_text))
     else if negb (from_option has_text true thing) then
       revised_respond 400
         (revised_error (Common Thing_must_be_an_object_with_text))
     else
       let* index := getIndex universe in
       match things, thing with
       | Some things, _ => store (omap as_thing things) index
       | None, Some thing => store (omap as_thing [thing]) index
       | None, None =>
           revised_respond 400
             (revised_error Either_thing_or_things_must_be_provided)
       end).

(** [queryItems] on a query vector that may be [undefined]: the index
    loads its data and then reads the vector. *)
Definition queryItems_at (index : IndexRef) (query : option vector) (topK : nat)
    : Async (list Scored) :=
  let* items := call index loadIndexData in
  match query with
  | Some query =>
      ret (take topK
             (rank ((fun item =>
                       {| scored_item := item;
                          scored_score := similarity query (item_vector item) |})
                    <$> items)))
  | None => throw TypeError
  end.

(** [await provider.getEmbeddings([thing])[0]]: the request is made, and
    element 0 is read off the promise, not off its result; that is
    [undefined], whatever the provider answers. *)
Definition queryVector (thing : string) : Async (option vector) :=
  fun w =>
    ({| universes := universes w; dataDir := dataDir w;
        api_calls := S (api_calls w); uuid_draws := uuid_draws w |},
     Return None).

Definition revised_resonate (body : ResonateBody.t)
    : World -> World * RevisedReply :=
  let universe := default "" (ResonateBody.universe body) in
  let reach := ResonateBody.reach body in
  revised_handler
    (if negb (truthy (ResonateBody.universe body)) then
       revised_respond 400 (revised_error (Common Universe_is_required))
     else if negb (universe_name_ok universe) then
       revised_respond 400 (revised_error (Common Invalid_universe_name))
     else if negb (truthy (ResonateBody.thing body)) then
       revised_respond 400 (revised_error (Common Thing_is_required))
     else if from_option (fun reach => (reach <? 1)%Z) false reach then
       revised_respond 400
         (revised_error (Common Reach_must_be_a_positive_integer))
     else
       let* index := getIndex universe in
       let* query := queryVector (default "" (ResonateBody.thing body)) in
       let* results :=
         queryItems_at index query (Z.to_nat (default 10%Z reach)) in
       revised_respond 200
         (revised_success_results
            ((fun x => {| match_closeness := scored_score x;
                          match_thing := item_text (scored_item x);
                          match_id := item_id (scored_item x) |})
             <$> results))).

(** [fs.promises.access(path)]: throws when nothing is at the path. *)
Definition fs_access (folder : string) : Async unit :=
  fun w =>
    match dataDir w !! folder with
    | Some _ => (w, Return tt)
    | None => (w, Throw (FsError "ENOENT"))
    end.

(** [fs.promises.rm(path, { recursive: true })]: removes the directory
    with what it holds; a missing path is an error. *)
Definition fs_rm_recursive (folder : string) : Async unit :=
  fun w =>
    match dataDir w !! folder with
    | Some _ =>
        ({| universes := universes w; dataDir := delete folder (dataDir w);
            api_calls := api_calls w; uuid_draws := uuid_draws w |}, Return tt)
    | None => (w, Throw (FsError "ENOENT"))
    end.

Definition revised_deleteUniverse (universe : string)
    : World -> World * RevisedReply :=
  revised_handler
    (if bool_decide (universe = "") then
       revised_respond 400 (revised_error (Common Universe_is_required))
     else if negb (universe_name_ok universe) then
       revised_respond 400 (revised_error (Common Invalid_universe_name))
     else
       let* found :=
         try_catch (await fs_access universe in ret true) (fun _ => ret false) in
       if negb found then
         revised_respond 404 (revised_error (Common Universe_not_found))
       else
         try_catch
           (await fs_rm_recursive universe in
            await delete_universes universe in
            revised_respond 200 revised_success)
           (fun _ => revised_respond 500 (revised_error Failed_to_delete_universe))).

(** ** Relations between the state before and the state after *)

(** No universe has been removed. *)
Definition created_kept (w w' : World) : Prop :=
  ∀ universe, created w universe = true → created w' universe = true.

(** The records of every universe are as they were. *)
Definition things_kept (w w' : World) : Prop :=
  ∀ universe, things_of w' universe = things_of w universe.

(** The order in which [rank] leaves two results: the second is not
    closer than the first. *)
Definition ranked_before (a b : Scored) : Prop :=
  closer (scored_score b) (scored_score a) = false.

(** The result the route reports for a stored record. *)
Definition match_of (query : vector) (item : IndexItem) : Match :=
  {| match_closeness := similarity query (item_vector item);
     match_thing := item_text item;
     match_id := item_id item |}.

(** The records a revised emit appends for things without ids: the k-th
    under the k-th id drawn, with the k-th vector. *)
Definition appended (draws : nat) (things : list Thing) (vectors : list vector)
    : list IndexItem :=
  imap (λ k tv, new_item (v4 (draws + k)) tv.2 (text tv.1)) (zip things vectors).

(** A method leaves every [index.json] in place. *)
Definition keeps_files {A} (method : Method A) : Prop :=
  ∀ folder object disk other,
    isIndexCreated other disk = true →
    isIndexCreated other (method folder object disk).1.2 = true.

(** A stored record with its score against the query vector. *)
Definition score_of (query : vector) (item : IndexItem) : Scored :=
  {| scored_item := item;
     scored_score := similarity query (item_vector item) |}.

(** The result reported for a scored record. *)
Definition to_match (x : Scored) : Match :=
  {| match_closeness := scored_score x;
     match_thing := item_text (scored_item x);
     match_id := item_id (scored_item x) |}.

(** What the revised [POST /emit] runs on the things of a body once the
    index is resolved. *)
Definition revised_emit_on (index : IndexRef) (body : EmitBody.t)
    (things : list Thing) : Async RevisedReply :=
  let* vectors := provider_getEmbeddings (text <$> things) in
  await insert_each index vectors 0 things in
  await (if truthy (EmitBody.replace body)
         then deleteItem index (default "" (EmitBody.replace body))
         else ret tt) in
  revised_respond 200 revised_success.

(** The state after the revised [DELETE /universe/:universe] on a
    well-formed name. *)
Definition removed (universe : string) (w : World) : World :=
  match dataDir w !! universe with
  | Some _ =>
      {| universes := delete universe (universes w);
         dataDir := delete universe (dataDir w);
         api_calls := api_calls w; uuid_draws := uuid_draws w |}
  | None => w
  end.

(** ** Lists of records *)

Lemma existsb_has_id id items :
  existsb (has_id id) items = true ↔ id ∈ item_id <$> items.
Proof.
  induction items as [|item rest IH]; simpl.
  - split; [discriminate | intros H; inversion H].
  - unfold has_id at 1. rewrite orb_true_iff, IH, elem_of_cons.
    rewrite bool_decide_eq_true. split; intros [?|?]; auto.
Qed.

Lemma existsb_has_id_false id items :
  existsb (has_id id) items = false ↔ id ∉ item_id <$> items.
Proof.
  rewrite <- existsb_has_id. destruct (existsb (has_id id) items); split; congruence.
Qed.

Lemma splice_id_absent id items :
  id ∉ item_id <$> items → splice_id id items = items.
Proof.
  induction items as [|item rest IH]; simpl; [done|].
  rewrite not_elem_of_cons. intros [Hne Hrest]. unfold has_id.
  rewrite bool_decide_eq_false_2 by done. by rewrite IH.
Qed.

Lemma splice_id_sublist id items : sublist (splice_id id items) items.
Proof.
  induction items as [|item rest IH]; simpl; [done|].
  destruct (has_id id item).
  - by apply sublist_cons.
  - by apply sublist_skip.
Qed.

Lemma splice_id_NoDup id items :
  NoDup (item_id <$> items) → NoDup (item_id <$> splice_id id items).
Proof.
  intros H. apply (sublist_NoDup _ _ H).
  apply fmap_sublist, splice_id_sublist.
Qed.

Lemma splice_id_gone id items :
  NoDup (item_id <$> items) → id ∉ item_id <$> splice_id id items.
Proof.
  induction items as [|item rest IH]; simpl.
  - intros _ H. inversion H.
  - rewrite NoDup_cons. intros [Hnotin Hnd]. unfold has_id. case_bool_decide as Heq.
    + by rewrite <- Heq.
    + simpl. rewrite not_elem_of_cons. split; [congruence | auto].
Qed.

Lemma splice_id_length id items :
  id ∈ item_id <$> items → S (length (splice_id id items)) = length items.
Proof.
  induction items as [|item rest IH]; simpl.
  - intros H. inversion H.
  - rewrite elem_of_cons. unfold has_id. case_bool_decide as Heq; [done|].
    intros [?|Hin]; [congruence|]. simpl. by rewrite IH.
Qed.

#[local] Arguments call : simpl never.
#[local] Arguments listItems : simpl never.
#[local] Arguments deleteItem : simpl never.
#[local] Arguments insertItem : simpl never.
#[local] Arguments queryItems : simpl never.
#[local] Arguments getIndex : simpl never.
#[local] Arguments getVector : simpl never.
#[local] Arguments insertThing : simpl never.

(** ** States *)

Lemma wf_fresh : wf fresh.
Proof.
  repeat split; simpl; intros *; rewrite ?lookup_empty; try done.
Qed.

Lemma wf_called w : wf w → wf (called w).
Proof. done. Qed.

Lemma wf_drawn w : wf w → wf (drawn w).
Proof. done. Qed.

Lemma wf_directory w universe index :
  wf w → universes w !! universe = Some index →
  dataDir w !! universe = Some {| index_json := Some (things_of w universe) |}.
Proof.
  intros (Hreg & _ & _) Hopen. destruct (Hreg _ _ Hopen) as (items & Hdir & _).
  unfold things_of. by rewrite Hdir.
Qed.

Lemma wf_not_inherited w universe index :
  wf w → universes w !! universe = Some index → inherited universe = false.
Proof.
  intros Hwf Hopen. pose proof (wf_directory _ _ _ Hwf Hopen) as Hdir.
  destruct Hwf as (_ & _ & Hinh).
  destruct (inherited universe) eqn:E; [|done].
  rewrite (Hinh _ E) in Hdir. discriminate.
Qed.

Lemma wf_NoDup w universe : wf w → NoDup (ids_of w universe).
Proof.
  intros (_ & Hnd & _). unfold ids_of, things_of.
  destruct (dataDir w !! universe) as [[[items|]]|] eqn:E;
    [by eapply Hnd | apply NoDup_nil_2 ..].
Qed.

Lemma wf_loaded w universe :
  wf w → is_Some (universes w !! universe) → wf (loaded universe w).
Proof.
  intros Hwf [index Hopen].
  pose proof (wf_directory _ _ _ Hwf Hopen) as Hdir.
  destruct Hwf as (Hreg & Hnd & Hinh). repeat split; simpl; [|done..].
  intros name index'. destruct (decide (universe = name)) as [<-|Hne].
  - rewrite lookup_insert_eq. intros [= <-]. eauto.
  - rewrite lookup_insert_ne by done. apply Hreg.
Qed.

Lemma wf_stored w universe items :
  wf w → inherited universe = false → NoDup (item_id <$> items) →
  wf (stored universe items w).
Proof.
  intros (Hreg & Hnd & Hinh) Hown Hitems. repeat split; simpl.
  - intros name index. destruct (decide (universe = name)) as [<-|Hne].
    + rewrite !lookup_insert_eq. intros [= <-]. eauto.
    + rewrite !lookup_insert_ne by done. apply Hreg.
  - intros name items'. destruct (decide (universe = name)) as [<-|Hne].
    + rewrite lookup_insert_eq. by intros [= <-].
    + rewrite lookup_insert_ne by done. apply Hnd.
  - intros name Hname. rewrite lookup_insert_ne by congruence. by apply Hinh.
Qed.

Lemma things_of_stored w universe items :
  things_of (stored universe items w) universe = items.
Proof. unfold things_of; simpl. by rewrite lookup_insert_eq. Qed.

Lemma stored_loaded w universe items :
  stored universe items (loaded universe w) = stored universe items w.
Proof. unfold stored, loaded; simpl. by rewrite insert_insert_eq. Qed.

Lemma stored_stored w universe items items' :
  stored universe items (stored universe items' w) = stored universe items w.
Proof. unfold stored; simpl. by rewrite !insert_insert_eq. Qed.

Lemma others_kept_refl universe w : others_kept universe w w.
Proof. by intros other _. Qed.

Lemma others_kept_trans universe w1 w2 w3 :
  others_kept universe w1 w2 → others_kept universe w2 w3 →
  others_kept universe w1 w3.
Proof.
  intros H12 H23 other Hne.
  destruct (H12 _ Hne) as [E1 E2], (H23 _ Hne) as [E3 E4]. split; congruence.
Qed.

(** ** Runs of the index methods on a registered index *)

Lemma call_NotAnIndex {A} (method : Method A) w :
  call NotAnIndex method w = (w, Throw TypeError).
Proof. done. Qed.

Lemma call_loadIndexData w universe :
  wf w → is_Some (universes w !! universe) →
  call (TheIndex universe) loadIndexData w
  = (loaded universe w, Return (things_of w universe)).
Proof.
  intros Hwf [index Hopen].
  pose proof (wf_directory _ _ _ Hwf Hopen) as Hdir.
  destruct Hwf as (Hreg & _ & _). destruct (Hreg _ _ Hopen) as (items & Hdir' & Hcache).
  assert (things_of w universe = items) as Hitems by congruence.
  unfold call, loadIndexData, loaded, set_universes. rewrite Hopen, Hdir, Hitems.
  destruct index as [[cache|]]; simpl in *; destruct Hcache as [?|?]; by simplify_eq.
Qed.

Lemma call_saveIndex w universe items :
  is_Some (universes w !! universe) → is_Some (dataDir w !! universe) →
  call (TheIndex universe) (saveIndex items) w
  = (stored universe items w, Return tt).
Proof.
  intros [index Hopen] [dir Hdir]. unfold call, saveIndex. by rewrite Hopen, Hdir.
Qed.

Lemma deleteItem_run w universe id :
  wf w → is_Some (universes w !! universe) →
  deleteItem (TheIndex universe) id w
  = (stored universe (splice_id id (things_of w universe)) w, Return tt).
Proof.
  intros Hwf Hopen. unfold deleteItem, bind.
  rewrite call_loadIndexData by done.
  destruct Hopen as [index Hopen].
  rewrite call_saveIndex, stored_loaded; [done | |]; simpl.
  - rewrite lookup_insert_eq; eauto.
  - erewrite wf_directory; eauto.
Qed.

Lemma insertItem_run_id w universe id v text :
  wf w → is_Some (universes w !! universe) →
  insertItem (TheIndex universe) (Some id) v text w
  = if existsb (has_id id) (things_of w universe)
    then (loaded universe w, Throw (IndexError "Item already exists"))
    else (stored universe (things_of w universe ++ [new_item id v text]) w,
          Return tt).
Proof.
  intros Hwf Hopen. unfold insertItem, bind.
  rewrite call_loadIndexData by done. unfold ret.
  destruct (existsb (has_id id) (things_of w universe)); [done|].
  destruct Hopen as [index Hopen].
  rewrite call_saveIndex, stored_loaded; [done | |]; simpl.
  - rewrite lookup_insert_eq; eauto.
  - erewrite wf_directory; eauto.
Qed.

Lemma insertItem_run_drawn w universe v text :
  wf w → is_Some (universes w !! universe) →
  insertItem (TheIndex universe) None v text w
  = let id := v4 (uuid_draws w) in
    if existsb (has_id id) (things_of w universe)
    then (drawn (loaded universe w), Throw (IndexError "Item already exists"))
    else (stored universe (things_of w universe ++ [new_item id v text]) (drawn w),
          Return tt).
Proof.
  intros Hwf Hopen. unfold insertItem, bind.
  rewrite call_loadIndexData by done. unfold draw_v4; simpl.
  destruct (existsb (has_id _) (things_of w universe)); [done|].
  destruct Hopen as [index Hopen].
  rewrite call_saveIndex; simpl.
  - unfold stored, drawn; simpl. by rewrite insert_insert_eq.
  - rewrite lookup_insert_eq; eauto.
  - erewrite wf_directory; eauto.
Qed.

(** ** Runs of the helpers *)

Lemma getIndex_run w universe :
  inherited universe = false →
  getIndex universe w = (opened universe w, Return (TheIndex universe)).
Proof.
  intros Hown. unfold getIndex, universes_get, opened, created, isIndexCreated.
  destruct (universes w !! universe) as [index|]; [done|]. rewrite Hown.
  unfold createIndex, isIndexCreated.
  by destruct (dataDir w !! universe) as [[[items|]]|]; destruct w.
Qed.

Lemma getIndex_inherited w universe :
  universes w !! universe = None → inherited universe = true →
  getIndex universe w = (w, Return NotAnIndex).
Proof.
  intros Hnone Hinh. unfold getIndex, universes_get. by rewrite Hnone, Hinh.
Qed.

Lemma wf_opened w universe :
  wf w → inherited universe = false → wf (opened universe w).
Proof.
  intros Hwf Hown. unfold opened.
  destruct (universes w !! universe) as [index|] eqn:Hreg; [done|].
  unfold created. destruct (dataDir w !! universe) as [[[items|]]|] eqn:Hdir;
    try (apply wf_stored; [done | done | apply NoDup_nil_2]).
  destruct Hwf as (Hr & Hnd & Hinh). repeat split; simpl; [|done..].
  intros name index. destruct (decide (universe = name)) as [<-|Hne].
  - rewrite lookup_insert_eq. intros [= <-]. eauto.
  - rewrite lookup_insert_ne by done. apply Hr.
Qed.

Lemma opened_open w universe : is_Some (universes (opened universe w) !! universe).
Proof.
  unfold opened. destruct (universes w !! universe) as [index|] eqn:Hreg; [by eauto|].
  destruct (created w universe); simpl; rewrite lookup_insert_eq; eauto.
Qed.

Lemma things_of_opened w universe other :
  things_of (opened universe w) other = things_of w other.
Proof.
  unfold opened. destruct (universes w !! universe); [done|].
  destruct (created w universe) eqn:Hc; [done|].
  unfold things_of; simpl. destruct (decide (universe = other)) as [<-|Hne].
  - rewrite lookup_insert_eq. unfold created in Hc.
    by destruct (dataDir w !! universe) as [[[items|]]|].
  - by rewrite lookup_insert_ne.
Qed.

Lemma created_opened w universe :
  wf w → created (opened universe w) universe = true.
Proof.
  intros Hwf. unfold opened.
  destruct (universes w !! universe) as [index|] eqn:Hreg.
  - unfold created. by erewrite wf_directory.
  - destruct (created w universe) eqn:Hc; [done|].
    unfold created; simpl. by rewrite lookup_insert_eq.
Qed.

Lemma counters_opened w universe :
  api_calls (opened universe w) = api_calls w
  ∧ uuid_draws (opened universe w) = uuid_draws w.
Proof.
  unfold opened. destruct (universes w !! universe); [done|].
  by destruct (created w universe).
Qed.

Lemma getVector_run w text :
  getVector text w
  = (called w, match embedding (api_calls w) text with
               | Some v => Return v
               | None => Throw ProviderError
               end).
Proof. unfold getVector. by destruct (embedding (api_calls w) text). Qed.

(** A thing whose embedding fails is not inserted. *)
Lemma insertThing_rejected index t w :
  embedding (api_calls w) (text t) = None →
  insertThing index t w = (called w, Throw ProviderError).
Proof. intros H. unfold insertThing, bind. by rewrite getVector_run, H. Qed.

(** A thing with an id replaces the record of that id, or is appended. *)
Lemma insertThing_run_id universe t i v w :
  wf w → is_Some (universes w !! universe) →
  embedding (api_calls w) (text t) = Some v →
  id t = Some i → i ≠ "" →
  insertThing (TheIndex universe) t w
  = (stored universe
       (splice_id i (things_of w universe) ++ [new_item i v (text t)])
       (called w), Return tt).
Proof.
  intros Hwf Hopen Hv Hid Hne.
  assert (inherited universe = false) as Hown
    by (destruct Hopen; by eapply wf_not_inherited).
  unfold insertThing, bind, listItems. rewrite getVector_run, Hv, Hid. simpl.
  rewrite bool_decide_eq_false_2 by done. simpl.
  rewrite (call_loadIndexData (called w)) by done.
  change (things_of (called w) universe) with (things_of w universe).
  assert (wf (loaded universe (called w))) as Hwf1 by by apply wf_loaded.
  assert (is_Some (universes (loaded universe (called w)) !! universe)) as Hopen1
    by (simpl; rewrite lookup_insert_eq; eauto).
  destruct (existsb (has_id i) (things_of w universe)) eqn:Hex.
  - rewrite deleteItem_run by done.
    change (things_of (loaded universe (called w)) universe)
      with (things_of w universe).
    rewrite stored_loaded.
    pose proof (wf_NoDup _ universe Hwf) as Hnd. unfold ids_of in Hnd.
    rewrite insertItem_run_id.
    + rewrite things_of_stored.
      rewrite (proj2 (existsb_has_id_false _ _)) by by apply splice_id_gone.
      by rewrite stored_stored.
    + apply wf_stored; [done | done | by apply splice_id_NoDup].
    + simpl. rewrite lookup_insert_eq. eauto.
  - unfold ret. rewrite insertItem_run_id by done.
    change (things_of (loaded universe (called w)) universe)
      with (things_of w universe).
    rewrite Hex, stored_loaded.
    by rewrite splice_id_absent by by apply existsb_has_id_false.
Qed.

(** A thing without an id is appended under a drawn id, unless the draw
    collides with a stored id. *)
Lemma insertThing_run_drawn universe t v w :
  wf w → is_Some (universes w !! universe) →
  embedding (api_calls w) (text t) = Some v →
  truthy (id t) = false →
  insertThing (TheIndex universe) t w
  = let id := v4 (uuid_draws w) in
    if existsb (has_id id) (things_of w universe)
    then (drawn (loaded universe (called w)),
          Throw (IndexError "Item already exists"))
    else (stored universe (things_of w universe ++ [new_item id v (text t)])
            (drawn (called w)), Return tt).
Proof.
  intros Hwf Hopen Hv Hid.
  unfold insertThing, bind. rewrite getVector_run, Hv, Hid.
  by rewrite (insertItem_run_drawn (called w)).
Qed.

(** ** What a piece of asynchronous code leaves related

    [stepping R Q m]: every run of [m] relates the state before to the
    state after by [R], whether it returns or throws, and a returned value
    satisfies [Q]. *)
Definition stepping (R : relation World) {A} (Q : A → Prop) (m : Async A) : Prop :=
  ∀ w, R w (m w).1 ∧ ∀ a, (m w).2 = Return a → Q a.

Section Stepping.
Context (R : relation World) `{!PreOrder R}.

Lemma stepping_ret {A} (Q : A → Prop) a : Q a → stepping R Q (ret a).
Proof. intros HQ w. split; [reflexivity|]. by intros a' [= <-]. Qed.

Lemma stepping_throw {A} (Q : A → Prop) e : stepping R Q (throw e).
Proof. intros w. split; [reflexivity|]. by intros a' [=]. Qed.

Lemma stepping_bind {A B} (Q : A → Prop) (Q' : B → Prop) m k :
  stepping R Q m → (∀ a, Q a → stepping R Q' (k a)) → stepping R Q' (bind m k).
Proof.
  intros Hm Hk w. unfold bind. destruct (Hm w) as [HR Ha].
  destruct (m w) as [w1 [a|e]]; simpl in *.
  - destruct (Hk a (Ha a eq_refl) w1) as [HR' Hb]. split; [by etrans | done].
  - split; [done | by intros b [=]].
Qed.

Lemma stepping_Promise_all tasks :
  Forall (stepping R (λ _, True)) tasks →
  stepping R (λ _, True) (Promise_all tasks).
Proof.
  induction 1 as [|task rest Htask _ IH]; simpl.
  - by apply stepping_ret.
  - intros w. destruct (Htask w) as [HR _].
    destruct (task w) as [w1 [[]|e]]; simpl in *.
    + destruct (IH w1) as [HR' _]. split; [by etrans | done].
    + destruct (IH w1) as [HR' _]. split; [by etrans | done].
Qed.
End Stepping.

#[local] Instance others_kept_preorder universe : PreOrder (others_kept universe).
Proof.
  split; [intros w; apply others_kept_refl | intros w1 w2 w3; apply others_kept_trans].
Qed.

(** The number of embedding requests made is as it was. *)
Definition same_calls (w w' : World) : Prop := api_calls w' = api_calls w.

#[local] Instance same_calls_preorder : PreOrder same_calls.
Proof. split; [by intros w | intros w1 w2 w3; unfold same_calls; congruence]. Qed.

(** The value of [index] in a handler that serves [universe]. *)
Definition refers (universe : string) (index : IndexRef) : Prop :=
  index = TheIndex universe ∨ index = NotAnIndex.

(** A method writes below its own folder only. *)
Definition confined {A} (method : Method A) : Prop :=
  ∀ folder object disk other,
    other ≠ folder → (method folder object disk).1.2 !! other = disk !! other.

Lemma confined_loadIndexData : confined loadIndexData.
Proof.
  intros folder object disk other Hne. unfold loadIndexData.
  destruct (cached object); [done|].
  by destruct (disk !! folder) as [[[items|]]|].
Qed.

Lemma confined_saveIndex items : confined (saveIndex items).
Proof.
  intros folder object disk other Hne. unfold saveIndex.
  destruct (disk !! folder); simpl; [by rewrite lookup_insert_ne | done].
Qed.

Lemma others_kept_call {A} universe index (method : Method A) :
  refers universe index → confined method →
  stepping (others_kept universe) (λ _, True) (call index method).
Proof.
  intros [-> | ->] Hconf w; [|by split; [apply others_kept_refl|]].
  split; [|done]. unfold call.
  destruct (universes w !! universe) as [object|]; [|apply others_kept_refl].
  specialize (Hconf universe object (dataDir w)).
  destruct (method universe object (dataDir w)) as [[object' disk'] r]; simpl in *.
  intros other Hne. simpl. rewrite lookup_insert_ne by done. split; [done|]. by apply Hconf.
Qed.

Lemma same_calls_call {A} index (method : Method A) :
  stepping same_calls (λ _, True) (call index method).
Proof.
  intros w. split; [|done]. unfold call, same_calls.
  destruct index as [name|]; [|done].
  destruct (universes w !! name) as [object|]; [|done].
  by destruct (method name object (dataDir w)) as [[object' disk'] r].
Qed.

Lemma others_kept_draw_v4 universe :
  stepping (others_kept universe) (λ _, True) draw_v4.
Proof. intros w. by split; [intros other _|]. Qed.

Lemma same_calls_draw_v4 : stepping same_calls (λ _, True) draw_v4.
Proof. by intros w. Qed.

Lemma others_kept_getVector universe text :
  stepping (others_kept universe) (λ _, True) (getVector text).
Proof.
  intros w. rewrite getVector_run. by split; [intros other _|].
Qed.

Lemma others_kept_getIndex universe :
  stepping (others_kept universe) (refers universe) (getIndex universe).
Proof.
  intros w. unfold getIndex, universes_get.
  destruct (universes w !! universe) as [index|].
  { split; [apply others_kept_refl|]. intros a [= <-]. by left. }
  destruct (inherited universe).
  { split; [apply others_kept_refl|]. intros a [= <-]. by right. }
  destruct (negb (isIndexCreated universe (dataDir w))) eqn:Hc; simpl.
  - unfold createIndex. apply negb_true_iff in Hc. rewrite Hc. simpl.
    split; [|intros a [= <-]; by left].
    intros other Hne; simpl. by rewrite !lookup_insert_ne.
  - split; [|intros a [= <-]; by left].
    intros other Hne; simpl. by rewrite !lookup_insert_ne.
Qed.

Lemma handler_fst route w : (handler route w).1 = (route w).1.
Proof. unfold handler. by destruct (route w) as [w' [reply|e]]. Qed.

Lemma others_kept_listItems universe index :
  refers universe index →
  stepping (others_kept universe) (λ _, True) (listItems index).
Proof. intros Href. by apply others_kept_call, confined_loadIndexData. Qed.

Lemma others_kept_deleteItem universe index id :
  refers universe index →
  stepping (others_kept universe) (λ _, True) (deleteItem index id).
Proof.
  intros Href. eapply stepping_bind; [apply _ | |intros items _].
  - by apply others_kept_call, confined_loadIndexData.
  - by apply others_kept_call, confined_saveIndex.
Qed.

Lemma others_kept_insertItem universe index id v text :
  refers universe index →
  stepping (others_kept universe) (λ _, True) (insertItem index id v text).
Proof.
  intros Href. eapply stepping_bind; [apply _ | |intros items _].
  { by apply others_kept_call, confined_loadIndexData. }
  eapply stepping_bind with (Q := λ _, True); [apply _ | |intros id' _].
  { destruct id; [by apply stepping_ret; [apply _|] | apply others_kept_draw_v4]. }
  destruct (existsb _ items); [apply stepping_throw, _|].
  by apply others_kept_call, confined_saveIndex.
Qed.

Lemma others_kept_queryItems universe index query topK :
  refers universe index →
  stepping (others_kept universe) (λ _, True) (queryItems index query topK).
Proof.
  intros Href. eapply stepping_bind; [apply _ | |intros items _].
  - by apply others_kept_call, confined_loadIndexData.
  - by apply stepping_ret; [apply _|].
Qed.

Lemma others_kept_insertThing universe index t :
  refers universe index →
  stepping (others_kept universe) (λ _, True) (insertThing index t).
Proof.
  intros Href. unfold insertThing.
  eapply stepping_bind; [apply _ | apply others_kept_getVector | intros v _].
  destruct (truthy (id t)); [|by apply others_kept_insertItem].
  eapply stepping_bind; [apply _ | by apply others_kept_listItems | intros items _].
  eapply stepping_bind with (Q := λ _, True); [apply _ | |intros _ _].
  - destruct (existsb _ items);
      [by apply others_kept_deleteItem | by apply stepping_ret; [apply _|]].
  - by apply others_kept_insertItem.
Qed.

Lemma emit_others_kept body w :
  others_kept (default "" (EmitBody.universe body)) w (emit body w).1.
Proof.
  unfold emit. rewrite handler_fst.
  match goal with
  | |- others_kept ?u _ (?m _).1 =>
      cut (stepping (others_kept u) (λ _ : Reply, True) m);
      [intros H; apply H|]
  end.
  repeat match goal with
         | |- stepping _ _ (if ?b then _ else _) =>
             destruct b; [by apply stepping_ret; [apply _|] |]
         end.
  eapply stepping_bind; [apply _ | apply others_kept_getIndex | intros index Href].
  eapply stepping_bind with (Q := λ _, True); [apply _ | |intros _ _].
  { destruct (EmitBody.things body) as [things|].
    - apply stepping_Promise_all; [apply _|].
      apply Forall_fmap, Forall_forall. intros t _. by apply others_kept_insertThing.
    - destruct (EmitBody.thing body) as [thing|]; [|by apply stepping_ret; [apply _|]].
      destruct (as_thing thing); simpl;
        [by apply others_kept_insertThing | by apply stepping_ret; [apply _|]]. }
  eapply stepping_bind with (Q := λ _, True); [apply _ | |intros _ _].
  { destruct (truthy _);
      [by apply others_kept_deleteItem | by apply stepping_ret; [apply _|]]. }
  by apply stepping_ret; [apply _|].
Qed.

Lemma resonate_others_kept body w :
  others_kept (default "" (ResonateBody.universe body)) w (resonate body w).1.
Proof.
  unfold resonate. rewrite handler_fst.
  match goal with
  | |- others_kept ?u _ (?m _).1 =>
      cut (stepping (others_kept u) (λ _ : Reply, True) m);
      [intros H; apply H|]
  end.
  repeat match goal with
         | |- stepping _ _ (if ?b then _ else _) =>
             destruct b; [by apply stepping_ret; [apply _|] |]
         end.
  eapply stepping_bind; [apply _ | apply others_kept_getIndex | intros index Href].
  eapply stepping_bind; [apply _ | apply others_kept_getVector | intros v _].
  eapply stepping_bind; [apply _ | by apply others_kept_queryItems | intros r _].
  by apply stepping_ret; [apply _|].
Qed.

Lemma deleteThing_others_kept universe id w :
  others_kept universe w (deleteThing universe id w).1.
Proof.
  unfold deleteThing. rewrite handler_fst.
  match goal with
  | |- others_kept ?u _ (?m _).1 =>
      cut (stepping (others_kept u) (λ _ : Reply, True) m);
      [intros H; apply H|]
  end.
  repeat match goal with
         | |- stepping _ _ (if ?b then _ else _) =>
             destruct b; [by apply stepping_ret; [apply _|] |]
         end.
  eapply stepping_bind; [apply _ | apply others_kept_getIndex | intros index Href].
  eapply stepping_bind; [apply _ | by apply others_kept_deleteItem | intros _ _].
  by apply stepping_ret; [apply _|].
Qed.

Lemma deleteUniverse_others_kept universe w :
  others_kept universe w (deleteUniverse universe w).1.
Proof.
  unfold deleteUniverse. rewrite handler_fst.
  repeat match goal with
         | |- others_kept _ _ ((if ?b then _ else _) _).1 =>
             destruct b; [apply others_kept_refl |]
         end.
  unfold try_catch, bind, delete_universes, rmdirSync; simpl.
  destruct (dataDir w !! universe) as [[[items|]]|]; simpl;
    intros other Hne; simpl; by rewrite ?lookup_delete_ne.
Qed.

(** ** Well-formedness along a run *)

Lemma wf_same_store w w' : same_store w w' → wf w → wf w'.
Proof. intros [Hu Hd]. unfold wf. by rewrite Hu, Hd. Qed.

Lemma wf_inherited_unregistered w universe :
  wf w → inherited universe = true → universes w !! universe = None.
Proof.
  intros Hwf Hinh. destruct (universes w !! universe) as [index|] eqn:Hreg; [|done].
  pose proof (wf_not_inherited _ _ _ Hwf Hreg). congruence.
Qed.

Lemma ready_opened w universe :
  wf w → inherited universe = false → ready universe (opened universe w).
Proof. intros Hwf Hown. split; [by apply wf_opened | apply opened_open]. Qed.

Lemma ready_stored w universe items :
  wf w → inherited universe = false → NoDup (item_id <$> items) →
  ready universe (stored universe items w).
Proof.
  intros Hwf Hown Hnd. split; [by apply wf_stored|].
  simpl. rewrite lookup_insert_eq. eauto.
Qed.

Lemma ready_not_inherited w universe : ready universe w → inherited universe = false.
Proof. intros [Hwf [index Hopen]]. by eapply wf_not_inherited. Qed.

Lemma NoDup_appended i v text items :
  NoDup (item_id <$> items) → i ∉ item_id <$> items →
  NoDup (item_id <$> items ++ [new_item i v text]).
Proof.
  intros Hnd Hnotin. rewrite fmap_app. apply NoDup_app. split; [done|].
  split; [|apply NoDup_singleton].
  intros x Hx. simpl. rewrite list_elem_of_singleton. congruence.
Qed.

Lemma deleteItem_ready w universe id :
  ready universe w → ready universe (deleteItem (TheIndex universe) id w).1.
Proof.
  intros [Hwf Hopen]. rewrite deleteItem_run by done. simpl.
  apply ready_stored; [done | by eapply ready_not_inherited |].
  apply splice_id_NoDup, (wf_NoDup _ universe Hwf).
Qed.

Lemma insertThing_ready w universe t :
  ready universe w → ready universe (insertThing (TheIndex universe) t w).1.
Proof.
  intros [Hwf Hopen].
  assert (inherited universe = false) as Hown by by eapply ready_not_inherited.
  pose proof (wf_NoDup _ universe Hwf) as Hnd. unfold ids_of in Hnd.
  destruct (embedding (api_calls w) (text t)) as [v|] eqn:Hv;
    [|by rewrite insertThing_rejected].
  destruct (truthy (id t)) eqn:Hid.
  - destruct (id t) as [i|] eqn:Hi; [|done]. simpl in Hid.
    apply negb_true_iff, bool_decide_eq_false in Hid.
    erewrite insertThing_run_id by done. simpl.
    apply (ready_stored (called w)); [done | done |].
    apply NoDup_appended; [by apply splice_id_NoDup | by apply splice_id_gone].
  - erewrite insertThing_run_drawn by done. simpl.
    destruct (existsb _ (things_of w universe)) eqn:Hex; simpl.
    + split; [by apply wf_drawn, wf_loaded|]. simpl. rewrite lookup_insert_eq. eauto.
    + apply (ready_stored (drawn (called w))); [done | done |].
      apply NoDup_appended; [done | by apply existsb_has_id_false].
Qed.

Lemma Promise_all_invariant (I : World → Prop) tasks :
  Forall (λ task : Async unit, ∀ w, I w → I (task w).1) tasks →
  ∀ w, I w → I (Promise_all tasks w).1.
Proof.
  induction 1 as [|task rest Htask _ IH]; simpl; [done|].
  intros w Hw. specialize (Htask w Hw).
  destruct (task w) as [w1 [[]|e]]; simpl in *; by apply IH.
Qed.

Lemma Promise_all_insertThing_ready universe things w :
  ready universe w →
  ready universe (Promise_all (insertThing (TheIndex universe) <$> things) w).1.
Proof.
  apply (Promise_all_invariant (ready universe)).
  apply Forall_fmap, Forall_forall. intros t _ w'. apply insertThing_ready.
Qed.

(** On an inherited name nothing is stored: every index method throws. *)
Lemma insertThing_NotAnIndex t w :
  same_store w (insertThing NotAnIndex t w).1
  ∧ ∃ e, (insertThing NotAnIndex t w).2 = Throw e.
Proof.
  unfold insertThing, bind, listItems, insertItem, bind.
  rewrite getVector_run.
  destruct (embedding (api_calls w) (text t)); [|by repeat split; eauto].
  destruct (truthy (id t)); rewrite call_NotAnIndex; by repeat split; eauto.
Qed.

Lemma Promise_all_NotAnIndex things w :
  same_store w (Promise_all (insertThing NotAnIndex <$> things) w).1.
Proof.
  revert w. induction things as [|t rest IH]; intros w; simpl; [done|].
  destruct (insertThing_NotAnIndex t w) as [[Hu Hd] [e He]].
  destruct (insertThing NotAnIndex t w) as [w1 r]; simpl in *. subst r. simpl.
  destruct (IH w1) as [Hu' Hd']. split; etrans; eauto.
Qed.


(** [preserving I m]: a run of [m] from a state in [I] ends in [I], whether
    it returns or throws. *)
Definition preserving (I : World → Prop) {A} (m : Async A) : Prop :=
  ∀ w, I w → I (m w).1.

Lemma preserving_ret I {A} (a : A) : preserving I (ret a).
Proof. by intros w. Qed.

Lemma preserving_bind I {A B} (m : Async A) (k : A → Async B) :
  preserving I m → (∀ a, preserving I (k a)) → preserving I (bind m k).
Proof.
  intros Hm Hk w Hw. unfold bind. specialize (Hm w Hw).
  destruct (m w) as [w1 [a|e]]; simpl in *; [by apply Hk | done].
Qed.

Lemma preserving_emit_on universe body :
  preserving (ready universe) (emit_on (TheIndex universe) body).
Proof.
  unfold emit_on. apply preserving_bind.
  { intros w. apply Promise_all_insertThing_ready. }
  intros _. apply preserving_bind; [|intros _; apply preserving_ret].
  destruct (truthy _); [|apply preserving_ret].
  intros w. apply deleteItem_ready.
Qed.

Lemma preserving_emit_on_NotAnIndex body :
  preserving wf (emit_on NotAnIndex body).
Proof.
  unfold emit_on. apply preserving_bind.
  { intros w Hwf. eapply wf_same_store; [apply Promise_all_NotAnIndex | done]. }
  intros _. apply preserving_bind; [|intros _; apply preserving_ret].
  destruct (truthy _); [|apply preserving_ret]. by intros w.
Qed.

(** ** Runs of the routes *)

Lemma Promise_all_single task w : Promise_all [task] w = task w.
Proof. simpl. by destruct (task w) as [w' [[]|e]]. Qed.

Lemma emit_tasks index body w :
  match EmitBody.things body, EmitBody.thing body with
  | Some things, _ => Promise_all (insertThing index <$> omap as_thing things)
  | None, Some thing => from_option (insertThing index) (ret tt) (as_thing thing)
  | None, None => ret tt
  end w
  = Promise_all (insertThing index <$> emit_items body) w.
Proof.
  unfold emit_items. destruct (EmitBody.things body) as [things|]; [done|].
  destruct (EmitBody.thing body) as [thing|]; [|done].
  destruct (as_thing thing); simpl; [|done].
  symmetry. apply Promise_all_single.
Qed.

Lemma emit_refused body w :
  emit_accepts body = false →
  ∃ message, emit body w = (w, {| status := 400; json := error message |}).
Proof.
  unfold emit_accepts, emit, handler, respond, ret. intros H.
  repeat match goal with
         | |- context [if negb ?b then _ else _] => destruct b; simpl; [|by eauto]
         | |- context [if ?b then _ else _] => destruct b; simpl; [by eauto|]
         end.
  done.
Qed.

Lemma emit_run body w :
  emit_accepts body = true →
  emit body w
  = handler (let* index := getIndex (default "" (EmitBody.universe body)) in
             emit_on index body) w.
Proof.
  unfold emit_accepts, emit. rewrite !andb_true_iff, negb_true_iff.
  intros ((((-> & ->) & ->) & ->) & ->). simpl.
  unfold handler, emit_on, bind.
  destruct (getIndex _ w) as [w1 [index|e]]; [|done].
  by rewrite emit_tasks.
Qed.

Lemma emit_run_own body w :
  emit_accepts body = true →
  inherited (default "" (EmitBody.universe body)) = false →
  emit body w
  = handler (emit_on (TheIndex (default "" (EmitBody.universe body))) body)
      (opened (default "" (EmitBody.universe body)) w).
Proof.
  intros Hacc Hown. rewrite emit_run by done.
  unfold handler, bind. by rewrite getIndex_run.
Qed.

Lemma emit_run_inherited body w :
  wf w → emit_accepts body = true →
  inherited (default "" (EmitBody.universe body)) = true →
  emit body w = handler (emit_on NotAnIndex body) w.
Proof.
  intros Hwf Hacc Hinh. rewrite emit_run by done.
  unfold handler, bind.
  by rewrite getIndex_inherited by by try apply wf_inherited_unregistered.
Qed.

Lemma emit_wf body w : wf w → wf (emit body w).1.
Proof.
  intros Hwf. destruct (emit_accepts body) eqn:Hacc.
  - destruct (inherited (default "" (EmitBody.universe body))) eqn:Hinh.
    + rewrite emit_run_inherited, handler_fst by done.
      by apply preserving_emit_on_NotAnIndex.
    + rewrite emit_run_own, handler_fst by done.
      by apply preserving_emit_on, ready_opened.
  - destruct (emit_refused body w Hacc) as [message ->]. done.
Qed.

Lemma universe_name_ok_nonempty universe :
  universe_name_ok universe = true → universe ≠ "".
Proof.
  unfold universe_name_ok. rewrite andb_true_iff, negb_true_iff.
  intros [H _]. by apply bool_decide_eq_false in H.
Qed.

Lemma deleteThing_refused universe id w :
  universe_name_ok universe = false ∨ id = "" →
  ∃ message, deleteThing universe id w
             = (w, {| status := 400; json := error message |}).
Proof.
  unfold deleteThing, handler, respond, ret. intros H.
  destruct (bool_decide (universe = "")); [by eauto|].
  destruct (universe_name_ok universe); simpl; [|by eauto].
  destruct H as [?| ->]; [done|]. by eauto.
Qed.

Lemma deleteThing_run universe id w :
  universe_name_ok universe = true → id ≠ "" →
  deleteThing universe id w
  = handler (let* index := getIndex universe in
             await deleteItem index id in respond 200 success) w.
Proof.
  intros Hok Hid. unfold deleteThing. rewrite Hok.
  rewrite !bool_decide_eq_false_2; [done | done |].
  by apply universe_name_ok_nonempty.
Qed.

Lemma deleteThing_run_own universe id w :
  wf w → universe_name_ok universe = true → id ≠ "" →
  inherited universe = false →
  deleteThing universe id w
  = (stored universe (splice_id id (things_of w universe)) (opened universe w),
     {| status := 200; json := success |}).
Proof.
  intros Hwf Hok Hid Hown. rewrite deleteThing_run by done.
  unfold handler, bind. rewrite getIndex_run by done.
  rewrite deleteItem_run by by apply ready_opened.
  by rewrite things_of_opened.
Qed.

Lemma deleteThing_run_inherited universe id w :
  wf w → universe_name_ok universe = true → id ≠ "" →
  inherited universe = true →
  deleteThing universe id w
  = (w, {| status := 500; json := error Internal_server_error |}).
Proof.
  intros Hwf Hok Hid Hinh. rewrite deleteThing_run by done.
  unfold handler, bind.
  by rewrite getIndex_inherited by by try apply wf_inherited_unregistered.
Qed.

Lemma deleteThing_wf universe id w : wf w → wf (deleteThing universe id w).1.
Proof.
  intros Hwf. destruct (universe_name_ok universe) eqn:Hok;
    [|by edestruct deleteThing_refused as [message ->]; eauto].
  destruct (decide (id = "")) as [Hid|Hid];
    [by edestruct deleteThing_refused as [message ->]; eauto|].
  destruct (inherited universe) eqn:Hinh.
  - by rewrite deleteThing_run_inherited.
  - rewrite deleteThing_run_own by done. simpl.
    apply wf_stored; [by apply wf_opened | done |].
    apply splice_id_NoDup. rewrite <- (things_of_opened w universe universe).
    apply (wf_NoDup (opened universe w)). by apply wf_opened.
Qed.

Lemma resonate_refused body w :
  resonate_accepts body = false →
  ∃ message, resonate body w = (w, {| status := 400; json := error message |}).
Proof.
  unfold resonate_accepts, resonate, handler, respond, ret. intros H.
  repeat match goal with
         | |- context [if negb ?b then _ else _] => destruct b; simpl; [|by eauto]
         | |- context [if ?b then _ else _] => destruct b; simpl; [by eauto|]
         end.
  done.
Qed.

Lemma resonate_run body w :
  resonate_accepts body = true →
  resonate body w
  = handler
      (let* index := getIndex (default "" (ResonateBody.universe body)) in
       let* query := getVector (default "" (ResonateBody.thing body)) in
       let* results :=
         queryItems index query
           (Z.to_nat (default 10%Z (ResonateBody.reach body))) in
       respond 200
         (success_results
            ((λ x, {| match_closeness := scored_score x;
                      match_thing := item_text (scored_item x);
                      match_id := item_id (scored_item x) |})
             <$> results))) w.
Proof.
  unfold resonate_accepts, resonate. rewrite !andb_true_iff, negb_true_iff.
  by intros (((-> & ->) & ->) & ->).
Qed.

Lemma resonate_run_own body w :
  wf w → resonate_accepts body = true →
  inherited (default "" (ResonateBody.universe body)) = false →
  resonate body w
  = let universe := default "" (ResonateBody.universe body) in
    match embedding (api_calls w) (default "" (ResonateBody.thing body)) with
    | Some query =>
        (loaded universe (called (opened universe w)),
         {| status := 200;
            json := success_results
                      (matches query
                         (Z.to_nat (default 10%Z (ResonateBody.reach body)))
                         (things_of w universe)) |})
    | None =>
        (called (opened universe w),
         {| status := 500; json := error Internal_server_error |})
    end.
Proof.
  intros Hwf Hacc Hown. rewrite resonate_run by done.
  unfold handler, bind. rewrite getIndex_run, getVector_run by done.
  destruct (counters_opened w (default "" (ResonateBody.universe body))) as [-> _].
  destruct (embedding _ _) as [query|]; [|done].
  unfold queryItems, bind.
  rewrite (call_loadIndexData (called (opened _ w)));
    [|by apply wf_called, wf_opened | apply opened_open].
  change (things_of (called ?x) ?u) with (things_of x u).
  by rewrite things_of_opened.
Qed.

Lemma resonate_run_inherited body w :
  wf w → resonate_accepts body = true →
  inherited (default "" (ResonateBody.universe body)) = true →
  resonate body w
  = (called w, {| status := 500; json := error Internal_server_error |}).
Proof.
  intros Hwf Hacc Hinh. rewrite resonate_run by done.
  unfold handler, bind.
  rewrite getIndex_inherited by by try apply wf_inherited_unregistered.
  rewrite getVector_run. by destruct (embedding _ _).
Qed.

Lemma resonate_wf body w : wf w → wf (resonate body w).1.
Proof.
  intros Hwf. destruct (resonate_accepts body) eqn:Hacc;
    [|by destruct (resonate_refused body w Hacc) as [message ->]].
  destruct (inherited (default "" (ResonateBody.universe body))) eqn:Hinh.
  - by rewrite resonate_run_inherited.
  - rewrite resonate_run_own by done. simpl.
    destruct (embedding _ _); simpl; [|by apply wf_called, wf_opened].
    apply wf_loaded; [by apply wf_called, wf_opened | apply opened_open].
Qed.

Lemma deleteUniverse_refused universe w :
  universe_name_ok universe = false →
  ∃ message, deleteUniverse universe w
             = (w, {| status := 400; json := error message |}).
Proof.
  unfold deleteUniverse, handler, respond, ret. intros ->.
  destruct (bool_decide (universe = "")); by eauto.
Qed.

Lemma deleteUniverse_run universe w :
  universe_name_ok universe = true →
  deleteUniverse universe w
  = (evicted universe w,
     match dataDir w !! universe with
     | Some {| index_json := None |} => {| status := 200; json := success |}
     | _ => {| status := 404; json := error Universe_not_found |}
     end).
Proof.
  intros Hok. unfold deleteUniverse. rewrite Hok.
  rewrite bool_decide_eq_false_2 by by apply universe_name_ok_nonempty.
  unfold handler, try_catch, bind, delete_universes, rmdirSync, evicted; simpl.
  by destruct (dataDir w !! universe) as [[[items|]]|].
Qed.

Lemma wf_evicted universe w : wf w → wf (evicted universe w).
Proof.
  intros (Hreg & Hnd & Hinh). unfold evicted.
  destruct (dataDir w !! universe) as [[[items|]]|] eqn:Hdir;
    repeat split; simpl; try done.
  all: try (intros name index; rewrite lookup_delete_Some; intros [Hne Hname];
            rewrite ?lookup_delete_ne by done; by eapply Hreg).
  - intros name items'. rewrite lookup_delete_Some. intros [_ ?]. by eapply Hnd.
  - intros name Hname. rewrite lookup_delete_None. right. by apply Hinh.
Qed.

Lemma deleteUniverse_wf universe w : wf w → wf (deleteUniverse universe w).1.
Proof.
  intros Hwf. destruct (universe_name_ok universe) eqn:Hok.
  - rewrite deleteUniverse_run by done. by apply wf_evicted.
  - by destruct (deleteUniverse_refused universe w Hok) as [message ->].
Qed.

Lemma serve_wf req w : wf w → wf (serve req w).1.
Proof.
  destruct req; simpl;
    [apply emit_wf | apply resonate_wf | apply deleteThing_wf | apply deleteUniverse_wf].
Qed.

Lemma ready_created w universe : ready universe w → created w universe = true.
Proof.
  intros [Hwf [index Hopen]]. unfold created. by erewrite wf_directory.
Qed.

#[local] Instance any_step_preorder : PreOrder any_step.
Proof. by split. Qed.

Lemma any_step_stepping {A} (m : Async A) : stepping any_step (λ _, True) m.
Proof. by intros w. Qed.

Lemma emit_on_returns index body :
  stepping any_step (λ r, r = {| status := 200; json := success |})
    (emit_on index body).
Proof.
  unfold emit_on.
  eapply stepping_bind; [apply _ | apply any_step_stepping | intros _ _].
  eapply stepping_bind; [apply _ | apply any_step_stepping | intros _ _].
  by apply stepping_ret; [apply _|].
Qed.

(** A reply of status 200 to [POST /emit] is the reply the route sends
    after its last step. *)
Lemma emit_200 body w :
  status (emit body w).2 = 200 →
  emit_accepts body = true
  ∧ ∃ index w1,
      getIndex (default "" (EmitBody.universe body)) w = (w1, Return index)
      ∧ emit_on index body w1
        = ((emit body w).1, Return {| status := 200; json := success |}).
Proof.
  destruct (emit_accepts body) eqn:Hacc;
    [|by destruct (emit_refused body w Hacc) as [message ->]].
  rewrite emit_run by done. unfold handler, bind.
  destruct (getIndex _ w) as [w1 [index|e]]; [|done].
  pose proof (emit_on_returns index body w1) as [_ Hret].
  destruct (emit_on index body w1) as [w2 [reply|e]] eqn:Hrun; [|done].
  simpl. intros _. split; [done|]. exists index, w1. split; [done|].
  by rewrite Hrun, (Hret reply eq_refl).
Qed.

Lemma splice_id_keeps id item items :
  item ∈ items → item_id item ≠ id → item ∈ splice_id id items.
Proof.
  intros Hin Hne. induction items as [|item' rest IH]; simpl; [done|].
  apply elem_of_cons in Hin as [<-|Hin]; unfold has_id.
  - rewrite bool_decide_eq_false_2 by done. by left.
  - case_bool_decide; [done|]. right. by apply IH.
Qed.

Lemma same_calls_deleteItem index id :
  stepping same_calls (λ _, True) (deleteItem index id).
Proof.
  eapply stepping_bind; [apply _ | apply same_calls_call | intros items _].
  apply same_calls_call.
Qed.

Lemma same_calls_insertItem index id v text :
  stepping same_calls (λ _, True) (insertItem index id v text).
Proof.
  eapply stepping_bind; [apply _ | apply same_calls_call | intros items _].
  eapply stepping_bind with (Q := λ _, True); [apply _ | |intros id' _].
  { destruct id; [by apply stepping_ret; [apply _|] | apply same_calls_draw_v4]. }
  destruct (existsb _ items); [apply stepping_throw, _ | apply same_calls_call].
Qed.

(** Each [insertThing] makes exactly one embedding request. *)
Lemma insertThing_api_calls index t w :
  api_calls (insertThing index t w).1 = S (api_calls w).
Proof.
  unfold insertThing, bind at 1. rewrite getVector_run.
  destruct (embedding (api_calls w) (text t)) as [v|]; [|done].
  match goal with
  | |- api_calls (?m (called w)).1 = _ =>
      cut (stepping same_calls (λ _, True) m); [intros H; apply (H (called w))|]
  end.
  destruct (truthy (id t)); [|apply same_calls_insertItem].
  eapply stepping_bind; [apply _ | apply same_calls_call | intros items _].
  eapply stepping_bind with (Q := λ _, True); [apply _ | |intros _ _].
  - destruct (existsb _ items);
      [apply same_calls_deleteItem | by apply stepping_ret; [apply _|]].
  - apply same_calls_insertItem.
Qed.

(** [Promise.all] is rejected as soon as one embedding request is. *)
Lemma Promise_all_rejected index things w :
  (∃ k t, things !! k = Some t ∧ embedding (api_calls w + k) (text t) = None) →
  ∃ e, (Promise_all (insertThing index <$> things) w).2 = Throw e.
Proof.
  revert w. induction things as [|t rest IH]; intros w (k & t' & Hk & Hfail).
  { by rewrite lookup_nil in Hk. }
  simpl. pose proof (insertThing_api_calls index t w) as Hcalls.
  destruct k as [|k]; simpl in Hk.
  - injection Hk as ->. rewrite Nat.add_0_r in Hfail.
    rewrite insertThing_rejected by done. simpl. eauto.
  - destruct (insertThing index t w) as [w1 [[]|e]]; simpl in *; [|by eauto].
    apply IH. exists k, t'. split; [done|].
    by replace (api_calls w1 + k) with (api_calls w + S k) by lia.
Qed.

(** When every embedding request is rejected, nothing is stored. *)
Lemma Promise_all_all_rejected index things w :
  (∀ k t, things !! k = Some t → embedding (api_calls w + k) (text t) = None) →
  same_store w (Promise_all (insertThing index <$> things) w).1.
Proof.
  revert w. induction things as [|t rest IH]; intros w Hfail; [done|].
  simpl. rewrite insertThing_rejected
    by (rewrite <- (Nat.add_0_r (api_calls w)); by apply Hfail).
  simpl. destruct (IH (called w)) as [Hu Hd]; [|done].
  intros k t' Hk. simpl.
  replace (S (api_calls w + k)) with (api_calls w + S k) by lia. by apply Hfail.
Qed.

(** ** Properties of the routes *)

(** C9. An operation that targets the universe [target req] leaves every
    other universe as it was: its cached handle in the registry, its
    directory, and so its stored records. *)
Theorem other_universes_unchanged (req : Request) (w : World) (other : string) :
  other ≠ target req →
  universes (serve req w).1 !! other = universes w !! other
  ∧ dataDir (serve req w).1 !! other = dataDir w !! other
  ∧ things_of (serve req w).1 other = things_of w other.
Proof.
  intros Hne.
  assert (others_kept (target req) w (serve req w).1) as Hkept.
  { destruct req; simpl.
    - apply emit_others_kept.
    - apply resonate_others_kept.
    - apply deleteThing_others_kept.
    - apply deleteUniverse_others_kept. }
  destruct (Hkept other Hne) as [Hreg Hdir].
  repeat split; [done | done |]. unfold things_of. by rewrite Hdir.
Qed.

(** C10. [deleteUniverse] on a well-formed name takes the handle of the
    universe out of the registry whatever the removal of the directory
    does.  When a handle was cached, the directory holds [index.json], so
    the removal fails and the reply is 404; the handle is gone all the
    same, and the next [getIndex] on the name builds a new [LocalIndex]
    (empty cache) and registers it. *)
Theorem deleteUniverse_evicts_handle (w : World) (universe : string) :
  universe_name_ok universe = true →
  universes (deleteUniverse universe w).1 !! universe = None
  ∧ (wf w → is_Some (universes w !! universe) →
     status (deleteUniverse universe w).2 = 404
     ∧ ∃ w', getIndex universe (deleteUniverse universe w).1
             = (w', Return (TheIndex universe))
             ∧ universes w' !! universe = Some {| cached := None |}).
Proof.
  intros Hok. rewrite deleteUniverse_run by done. simpl. split.
  { unfold evicted. destruct (dataDir w !! universe) as [[[items|]]|]; simpl;
      apply lookup_delete_eq. }
  intros Hwf [index Hopen].
  pose proof (wf_directory _ _ _ Hwf Hopen) as Hdir.
  pose proof (wf_not_inherited _ _ _ Hwf Hopen) as Hown.
  unfold evicted. rewrite Hdir. split; [done|].
  rewrite getIndex_run by done. eexists. split; [done|].
  unfold opened, created; simpl. rewrite lookup_delete_eq, Hdir. simpl.
  by rewrite lookup_insert_eq.
Qed.

(** C7 (amended). A successful [POST /emit] replies with the body
    [{ status: 'success' }] and nothing else: it reports no ids. *)
Theorem emit_success_reports_status_only (body : EmitBody.t) (w : World) :
  status (emit body w).2 = 200 →
  json (emit body w).2 = success ∧ reply_ids (emit body w).2 = [].
Proof.
  intros H200. destruct (emit_200 body w H200) as (Hacc & index & w1 & Hget & Hrun).
  rewrite emit_run by done. unfold handler, bind. by rewrite Hget, Hrun.
Qed.

(** C6 (amended). A universe is created by the first request that passes
    validation and resolves its index with [getIndex]: [POST /emit],
    [POST /resonate] and also [DELETE /thing]; [DELETE /universe] creates
    no universe. *)
Theorem universe_created_on_index_resolution (w : World) :
  wf w →
  (∀ req, accepts req = true → inherited (target req) = false →
          (∀ universe, req ≠ DeleteUniverse universe) →
          created (serve req w).1 (target req) = true)
  ∧ (∀ universe other,
       created (deleteUniverse universe w).1 other = true → created w other = true).
Proof.
  intros Hwf. split.
  - intros [body|body|universe id|universe] Hacc Hown Hnot; simpl in *.
    + rewrite emit_run_own, handler_fst by done.
      by apply ready_created, preserving_emit_on, ready_opened.
    + rewrite resonate_run_own by done. simpl.
      destruct (embedding _ _); simpl; by apply created_opened.
    + apply andb_true_iff in Hacc as [Hok Hid].
      apply negb_true_iff, bool_decide_eq_false in Hid.
      rewrite deleteThing_run_own by done.
      unfold created; simpl. by rewrite lookup_insert_eq.
    + by destruct (Hnot universe).
  - intros universe other.
    destruct (universe_name_ok universe) eqn:Hok;
      [|by destruct (deleteUniverse_refused universe w Hok) as [message ->]].
    rewrite deleteUniverse_run by done. simpl. unfold evicted, created.
    destruct (dataDir w !! universe) as [[[items|]]|] eqn:Hdir; simpl; try done.
    destruct (decide (universe = other)) as [<-|Hne].
    + by rewrite lookup_delete_eq.
    + by rewrite lookup_delete_ne.
Qed.

(** C4 (amended). An emit call without items is not rejected.  On a
    well-formed universe name that is not an inherited property name it
    succeeds with status 200, makes no embedding request and inserts no
    record; the universe is created if it was not, and the record of the
    replace id, when one is given, is deleted. *)
Theorem emit_without_items_succeeds (w : World) (body : EmitBody.t)
    (universe : string) :
  wf w →
  EmitBody.universe body = Some universe →
  universe_name_ok universe = true → inherited universe = false →
  EmitBody.thing body = None →
  EmitBody.things body = None ∨ EmitBody.things body = Some [] →
  (emit body w).2 = {| status := 200; json := success |}
  ∧ api_calls (emit body w).1 = api_calls w
  ∧ created (emit body w).1 universe = true
  ∧ things_of (emit body w).1 universe
    = if truthy (EmitBody.replace body)
      then splice_id (default "" (EmitBody.replace body)) (things_of w universe)
      else things_of w universe.
Proof.
  intros Hwf Hu Hok Hown Hthing Hthings.
  assert (emit_accepts body = true) as Hacc.
  { unfold emit_accepts. rewrite Hu, Hthing. simpl. rewrite Hok.
    rewrite bool_decide_eq_false_2 by by apply universe_name_ok_nonempty.
    by destruct Hthings as [-> | ->]. }
  assert (emit_items body = []) as Hitems.
  { unfold emit_items. rewrite Hthing. by destruct Hthings as [-> | ->]. }
  rewrite emit_run_own by (by try rewrite Hu). rewrite Hu. simpl.
  unfold handler, emit_on, bind. rewrite Hitems. simpl.
  destruct (truthy (EmitBody.replace body)).
  - rewrite deleteItem_run by by apply ready_opened. simpl.
    rewrite things_of_opened, things_of_stored.
    repeat split; [apply counters_opened|].
    unfold created; simpl. by rewrite lookup_insert_eq.
  - simpl. rewrite things_of_opened.
    repeat split; [apply counters_opened | by apply created_opened].
Qed.

(** C5 (amended). When the embedding provider rejects the request made
    for one of the items of an accepted emit call, the reply is the generic
    one, status 500 with [Internal server error].  When it rejects the
    request of every item, in particular that of a single item, nothing is
    written: the records of every universe are what they were. *)
Theorem emit_provider_failure (w : World) (body : EmitBody.t) :
  wf w → emit_accepts body = true →
  (∃ k t, emit_items body !! k = Some t
          ∧ embedding (api_calls w + k) (text t) = None) →
  (emit body w).2 = {| status := 500; json := error Internal_server_error |}
  ∧ ((∀ k t, emit_items body !! k = Some t →
             embedding (api_calls w + k) (text t) = None) →
     ∀ universe, things_of (emit body w).1 universe = things_of w universe).
Proof.
  intros Hwf Hacc Hsome.
  destruct (inherited (default "" (EmitBody.universe body))) eqn:Hinh.
  - rewrite emit_run_inherited by done. unfold handler, emit_on, bind.
    destruct (Promise_all_rejected NotAnIndex _ w Hsome) as [e He].
    pose proof (Promise_all_all_rejected NotAnIndex (emit_items body) w) as Hall.
    destruct (Promise_all _ w) as [w1 r]; simpl in *. subst r. split; [done|].
    intros Hevery universe. destruct (Hall Hevery) as [_ Hd].
    unfold things_of. simpl. by rewrite Hd.
  - rewrite emit_run_own by done. unfold handler, emit_on, bind.
    set (u := default "" (EmitBody.universe body)) in *.
    destruct (counters_opened w u) as [Hcalls _].
    rewrite <- Hcalls in Hsome.
    destruct (Promise_all_rejected (TheIndex u) _ (opened u w) Hsome) as [e He].
    pose proof (Promise_all_all_rejected (TheIndex u) (emit_items body)
                  (opened u w)) as Hall.
    destruct (Promise_all _ (opened u w)) as [w1 r]; simpl in *. subst r.
    split; [done|].
    intros Hevery universe. rewrite Hcalls in Hall.
    destruct (Hall Hevery) as [_ Hd].
    rewrite <- (things_of_opened w u universe).
    unfold things_of. simpl. by rewrite Hd.
Qed.

(** ** Ids stay distinct

    Every step of a route keeps the ids of each universe distinct, in
    memory and on disk, from any state: the file and the memory of a
    handle need not agree, so the property does not depend on the order in
    which the steps of different insertions follow one another. *)

Lemma keeping_ret I {A} (Q : A → Prop) a : Q a → keeping I Q (ret a).
Proof. intros HQ w Hw. split; [done|]. by intros a' [= <-]. Qed.

Lemma keeping_throw I {A} (Q : A → Prop) e : keeping I Q (throw e).
Proof. intros w Hw. split; [done|]. by intros a' [=]. Qed.

Lemma keeping_bind I {A B} (Q : A → Prop) (Q' : B → Prop) m k :
  keeping I Q m → (∀ a, Q a → keeping I Q' (k a)) → keeping I Q' (bind m k).
Proof.
  intros Hm Hk w Hw. unfold bind. destruct (Hm w Hw) as [Hw1 Ha].
  destruct (m w) as [w1 [a|e]]; simpl in *.
  - by apply Hk; [apply Ha|].
  - split; [done | by intros b [=]].
Qed.

Lemma keeping_try_catch I {A} (Q : A → Prop) m h :
  keeping I Q m → (∀ e, keeping I Q (h e)) → keeping I Q (try_catch m h).
Proof.
  intros Hm Hh w Hw. unfold try_catch. destruct (Hm w Hw) as [Hw1 Ha].
  destruct (m w) as [w1 [a|e]]; simpl in *; [done | by apply Hh].
Qed.

Lemma keeping_Promise_all I tasks :
  Forall (keeping I (λ _, True)) tasks →
  keeping I (λ _, True) (Promise_all tasks).
Proof.
  induction 1 as [|task rest Htask _ IH]; simpl; [by apply keeping_ret|].
  intros w Hw. destruct (Htask w Hw) as [Hw1 _].
  destruct (task w) as [w1 [[]|e]]; simpl in *.
  - by apply IH.
  - split; [by apply IH | done].
Qed.

Lemma distinct_ids_fresh : distinct_ids fresh.
Proof. split; intros name items; simpl; by rewrite lookup_empty. Qed.


Lemma distinct_ids_NoDup w universe : distinct_ids w → NoDup (ids_of w universe).
Proof.
  intros [Hdisk _]. unfold ids_of, things_of.
  destruct (dataDir w !! universe) as [[[items|]]|] eqn:Hdir;
    [by eapply Hdisk | apply NoDup_nil_2..].
Qed.

Lemma keeping_call {A} (Q : A → Prop) index (method : Method A) :
  keeps_distinct Q method → keeping distinct_ids Q (call index method).
Proof.
  intros Hmethod w [Hdisk Hmem]. unfold call.
  destruct index as [name|]; [|by split].
  destruct (universes w !! name) as [object|] eqn:Hreg; [|by split].
  destruct (Hmethod name object (dataDir w)) as (Hobject & Hfiles & Hret).
  { intros items Hc. apply (Hmem name). rewrite Hreg. by destruct object; simplify_eq/=. }
  { done. }
  destruct (method name object (dataDir w)) as [[object' disk'] r]; simpl in *.
  split; [|done]. split; simpl; [done|].
  intros other items. destruct (decide (name = other)) as [<-|Hne].
  - rewrite lookup_insert_eq. intros [= ->]. by apply Hobject.
  - rewrite lookup_insert_ne by done. apply Hmem.
Qed.

Lemma keeps_distinct_loadIndexData :
  keeps_distinct (λ items, NoDup (item_id <$> items)) loadIndexData.
Proof.
  intros folder object disk Hobject Hfiles. unfold loadIndexData.
  destruct (cached object) as [items|] eqn:Hc; simpl.
  { rewrite Hc. split; [done|]. split; [done|]. intros a [= <-]. by apply Hobject. }
  destruct (disk !! folder) as [[[items|]]|] eqn:Hdir; simpl;
    try (rewrite Hc; by repeat split).
  split; [intros ? [= <-]; by eapply Hfiles|]. split; [done|].
  intros a [= <-]. by eapply Hfiles.
Qed.

Lemma keeps_distinct_saveIndex items :
  NoDup (item_id <$> items) → keeps_distinct (λ _, True) (saveIndex items).
Proof.
  intros Hnd folder object disk Hobject Hfiles. unfold saveIndex.
  destruct (disk !! folder) as [dir|] eqn:Hdir; simpl; [|done].
  split; [by intros ? [= <-]|]. split; [|done].
  intros name items'. destruct (decide (folder = name)) as [<-|Hne].
  - rewrite lookup_insert_eq. by intros [= <-].
  - rewrite lookup_insert_ne by done. apply Hfiles.
Qed.

Lemma keeps_distinct_createIndex : keeps_distinct (λ _, True) createIndex.
Proof.
  intros folder object disk Hobject Hfiles. unfold createIndex.
  destruct (isIndexCreated folder disk); simpl; [done|].
  split; [intros ? [= <-]; apply NoDup_nil_2|]. split; [|done].
  intros name items. destruct (decide (folder = name)) as [<-|Hne].
  - rewrite lookup_insert_eq. intros [= <-]. apply NoDup_nil_2.
  - rewrite lookup_insert_ne by done. apply Hfiles.
Qed.

Lemma distinct_ids_listItems index :
  keeping distinct_ids (λ items, NoDup (item_id <$> items)) (listItems index).
Proof. apply keeping_call, keeps_distinct_loadIndexData. Qed.

Lemma distinct_ids_deleteItem index i :
  keeping distinct_ids (λ _, True) (deleteItem index i).
Proof.
  unfold deleteItem.
  eapply keeping_bind; [apply keeping_call, keeps_distinct_loadIndexData|].
  intros items Hnd. by apply keeping_call, keeps_distinct_saveIndex, splice_id_NoDup.
Qed.

Lemma distinct_ids_insertItem index i v text :
  keeping distinct_ids (λ _, True) (insertItem index i v text).
Proof.
  unfold insertItem.
  eapply keeping_bind; [apply keeping_call, keeps_distinct_loadIndexData|].
  intros items Hnd.
  eapply keeping_bind with (Q := λ _, True).
  { destruct i as [i|]; [by apply keeping_ret|]. by intros w Hw. }
  intros i' _. destruct (existsb (has_id i') items) eqn:Hex;
    [apply keeping_throw|].
  apply keeping_call, keeps_distinct_saveIndex, NoDup_appended; [done|].
  by apply existsb_has_id_false.
Qed.

Lemma distinct_ids_queryItems index query topK :
  keeping distinct_ids (λ _, True) (queryItems index query topK).
Proof.
  unfold queryItems.
  eapply keeping_bind; [apply keeping_call, keeps_distinct_loadIndexData|].
  intros items _. by apply keeping_ret.
Qed.

Lemma distinct_ids_getVector text :
  keeping distinct_ids (λ _, True) (getVector text).
Proof. intros w Hw. rewrite getVector_run. by split. Qed.

Lemma distinct_ids_getIndex universe :
  keeping distinct_ids (λ _, True) (getIndex universe).
Proof.
  intros w [Hdisk Hmem]. split; [|done].
  unfold getIndex. destruct (universes_get w universe); [done..|].
  destruct (keeps_distinct_createIndex universe {| cached := None |} (dataDir w))
    as (Hobject & Hfiles & _); [done..|].
  destruct (isIndexCreated universe (dataDir w)); simpl.
  - split; simpl; [done|]. intros other items.
    destruct (decide (universe = other)) as [<-|Hne].
    + by rewrite lookup_insert_eq.
    + rewrite lookup_insert_ne by done. apply Hmem.
  - destruct (createIndex universe {| cached := None |} (dataDir w))
      as [[object disk] [[]|e]]; simpl in *; [|by split].
    split; simpl; [done|]. intros other items.
    destruct (decide (universe = other)) as [<-|Hne].
    + rewrite lookup_insert_eq. intros [= ->]. by apply Hobject.
    + rewrite lookup_insert_ne by done. apply Hmem.
Qed.

Lemma distinct_ids_insertThing index t :
  keeping distinct_ids (λ _, True) (insertThing index t).
Proof.
  unfold insertThing.
  eapply keeping_bind; [apply distinct_ids_getVector|]. intros v _.
  destruct (truthy (id t)); [|apply distinct_ids_insertItem].
  eapply keeping_bind; [apply distinct_ids_listItems|]. intros items _.
  eapply keeping_bind with (Q := λ _, True); [|intros _ _; apply distinct_ids_insertItem].
  destruct (existsb _ items); [apply distinct_ids_deleteItem | by apply keeping_ret].
Qed.

Lemma distinct_ids_delete_universes universe :
  keeping distinct_ids (λ _, True) (delete_universes universe).
Proof.
  intros w [Hdisk Hmem]. split; [|done]. split; simpl; [done|].
  intros name items Hreg. apply lookup_delete_Some in Hreg as [_ Hreg].
  by eapply Hmem.
Qed.

Lemma distinct_ids_rmdirSync folder :
  keeping distinct_ids (λ _, True) (rmdirSync folder).
Proof.
  intros w [Hdisk Hmem]. split; [|done]. unfold rmdirSync.
  destruct (dataDir w !! folder) as [[[items|]]|]; simpl; [done| |done].
  split; simpl; [|done].
  intros name items Hdir. apply lookup_delete_Some in Hdir as [_ Hdir].
  by eapply Hdisk.
Qed.

Lemma distinct_ids_handler route w :
  keeping distinct_ids (λ _ : Reply, True) route →
  distinct_ids w → distinct_ids (handler route w).1.
Proof. intros Hroute Hw. rewrite handler_fst. by apply Hroute. Qed.

Lemma distinct_ids_serve req w : distinct_ids w → distinct_ids (serve req w).1.
Proof.
  intros Hw. destruct req as [body|body|universe i|universe]; simpl.
  - apply distinct_ids_handler; [|done].
    repeat match goal with
           | |- keeping _ _ (if ?b then _ else _) =>
               destruct b; [by apply keeping_ret|]
           end.
    eapply keeping_bind; [apply distinct_ids_getIndex|]. intros index _.
    eapply keeping_bind with (Q := λ _, True).
    { destruct (EmitBody.things body) as [things|].
      - apply keeping_Promise_all, Forall_fmap, Forall_forall.
        intros t _. apply distinct_ids_insertThing.
      - destruct (EmitBody.thing body) as [thing|]; [|by apply keeping_ret].
        destruct (as_thing thing); simpl;
          [apply distinct_ids_insertThing | by apply keeping_ret]. }
    intros _ _. eapply keeping_bind with (Q := λ _, True).
    { destruct (truthy _); [apply distinct_ids_deleteItem | by apply keeping_ret]. }
    intros _ _. by apply keeping_ret.
  - apply distinct_ids_handler; [|done].
    repeat match goal with
           | |- keeping _ _ (if ?b then _ else _) =>
               destruct b; [by apply keeping_ret|]
           end.
    eapply keeping_bind; [apply distinct_ids_getIndex|]. intros index _.
    eapply keeping_bind; [apply distinct_ids_getVector|]. intros query _.
    eapply keeping_bind; [apply distinct_ids_queryItems|]. intros results _.
    by apply keeping_ret.
  - apply distinct_ids_handler; [|done].
    repeat match goal with
           | |- keeping _ _ (if ?b then _ else _) =>
               destruct b; [by apply keeping_ret|]
           end.
    eapply keeping_bind; [apply distinct_ids_getIndex|]. intros index _.
    eapply keeping_bind; [apply distinct_ids_deleteItem|]. intros _ _.
    by apply keeping_ret.
  - apply distinct_ids_handler; [|done].
    repeat match goal with
           | |- keeping _ _ (if ?b then _ else _) =>
               destruct b; [by apply keeping_ret|]
           end.
    apply keeping_try_catch; [|intros e; by apply keeping_ret].
    eapply keeping_bind; [apply distinct_ids_delete_universes|]. intros _ _.
    eapply keeping_bind; [apply distinct_ids_rmdirSync|]. intros _ _.
    by apply keeping_ret.
Qed.

Lemma distinct_ids_emit_with insertions body w :
  (∀ index, keeping distinct_ids (λ _, True) (insertions index)) →
  distinct_ids w → distinct_ids (emit_with insertions body w).1.
Proof.
  intros Hkeep Hw. apply distinct_ids_handler; [|done].
  eapply keeping_bind; [apply distinct_ids_getIndex|]. intros index _.
  eapply keeping_bind; [apply Hkeep|]. intros _ _.
  eapply keeping_bind with (Q := λ _, True).
  { destruct (truthy _); [apply distinct_ids_deleteItem | by apply keeping_ret]. }
  intros _ _. by apply keeping_ret.
Qed.

Lemma stored_id_not_inherited w universe x :
  wf w → x ∈ ids_of w universe → inherited universe = false.
Proof.
  intros (_ & _ & Hinh) Hin. destruct (inherited universe) eqn:E; [|done].
  unfold ids_of, things_of in Hin. rewrite (Hinh _ E) in Hin. inversion Hin.
Qed.

Lemma filter_id_absent x items :
  x ∉ item_id <$> items → filter (λ item, item_id item = x) items = [].
Proof.
  induction items as [|item rest IH]; simpl; [done|].
  rewrite not_elem_of_cons. intros [Hne Hrest].
  rewrite filter_cons_False by congruence. by apply IH.
Qed.

(** C2. Emitting [{ id: x, text: B }], as [thing] or as the only element
    of [things], into a universe that holds a record of id [x] succeeds
    and leaves exactly one record of id [x], the new one, with as many
    records as before.  No two records of a universe share an id on the
    fresh server, and every operation keeps it so, from any state: in
    each [index.json] and in the memory of each handle, whether or not
    the two agree.  Each insertion of an emit call keeps it so on its
    own, and the call keeps it so whatever its insertions do, in
    whatever order their steps run, as long as they do. *)
Theorem emit_upserts_by_id (w : World) (universe x B : string) (v : vector)
    (batched : bool) :
  wf w → universe_name_ok universe = true → x ≠ "" →
  x ∈ ids_of w universe →
  embedding (api_calls w) B = Some v →
  let t := {| raw_text := Some B; raw_id := Some x |} in
  let body := {| EmitBody.universe := Some universe;
                 EmitBody.thing := if batched then None else Some t;
                 EmitBody.things := if batched then Some [t] else None;
                 EmitBody.replace := None |} in
  (emit body w).2 = {| status := 200; json := success |}
  ∧ filter (λ item, item_id item = x) (things_of (emit body w).1 universe)
    = [new_item x v B]
  ∧ length (ids_of (emit body w).1 universe) = length (ids_of w universe)
  ∧ distinct_ids fresh
  ∧ (∀ req w0 u, distinct_ids w0 →
       distinct_ids (serve req w0).1 ∧ NoDup (ids_of (serve req w0).1 u))
  ∧ (∀ index t, keeping distinct_ids (λ _, True) (insertThing index t))
  ∧ (∀ (insertions : IndexRef → Async unit) body0 w0,
       (∀ index, keeping distinct_ids (λ _, True) (insertions index)) →
       distinct_ids w0 → distinct_ids (emit_with insertions body0 w0).1).
Proof.
  intros Hwf Hok Hx Hin Hv t body.
  assert ((∀ req w0 u, distinct_ids w0 →
             distinct_ids (serve req w0).1
             ∧ NoDup (ids_of (serve req w0).1 u))
          ∧ (∀ index t, keeping distinct_ids (λ _, True) (insertThing index t))
          ∧ (∀ (insertions : IndexRef → Async unit) body0 w0,
               (∀ index, keeping distinct_ids (λ _, True) (insertions index)) →
               distinct_ids w0 →
               distinct_ids (emit_with insertions body0 w0).1)) as Hinv.
  { split; [|split].
    - intros req w0 u Hw0. split; [by apply distinct_ids_serve|].
      by apply distinct_ids_NoDup, distinct_ids_serve.
    - apply distinct_ids_insertThing.
    - intros insertions body0 w0. apply distinct_ids_emit_with. }
  pose proof (stored_id_not_inherited _ _ _ Hwf Hin) as Hown.
  assert (emit_accepts body = true) as Hacc.
  { unfold emit_accepts, body; simpl. rewrite Hok.
    rewrite bool_decide_eq_false_2 by by apply universe_name_ok_nonempty.
    by destruct batched. }
  assert (emit_items body = [ {| text := B; id := Some x |} ]) as Hitems
    by by destruct batched.
  rewrite emit_run_own by done. simpl.
  unfold handler, emit_on, bind. rewrite Hitems.
  change (insertThing ?index <$> [?t]) with [insertThing index t].
  rewrite Promise_all_single.
  destruct (counters_opened w universe) as [Hcalls _].
  erewrite (insertThing_run_id universe _ x v (opened universe w));
    [|by apply wf_opened | apply opened_open | by rewrite Hcalls | done..].
  simpl. rewrite things_of_opened.
  unfold ids_of. rewrite things_of_stored.
  pose proof (wf_NoDup _ universe Hwf) as Hnd. unfold ids_of in *.
  split; [done|]. split; [|split; [|split; [apply distinct_ids_fresh | done]]].
  - rewrite filter_app, filter_id_absent by by apply splice_id_gone.
    by rewrite filter_cons_True.
  - rewrite !length_fmap, length_app, Nat.add_comm. simpl.
    by apply splice_id_length.
Qed.

Lemma splice_id_appended i v text items :
  i ∉ item_id <$> items → splice_id i (items ++ [new_item i v text]) = items.
Proof.
  induction items as [|item rest IH]; simpl.
  - intros _. unfold has_id. simpl. by rewrite bool_decide_eq_true_2.
  - rewrite not_elem_of_cons. intros [Hne Hrest]. unfold has_id at 1.
    rewrite bool_decide_eq_false_2 by done. by rewrite IH.
Qed.







Lemma opened_registered w universe :
  is_Some (universes w !! universe) → opened universe w = w.
Proof. intros [index Hreg]. unfold opened. by rewrite Hreg. Qed.

(** X1. Deleting a thing twice from a universe whose name is not inherited:
    both calls succeed, the id is absent after the first, and the second
    changes nothing. *)
Theorem deleteThing_twice (w : World) (universe id : string) :
  wf w → universe_name_ok universe = true → id ≠ "" →
  inherited universe = false →
  (deleteThing universe id w).2 = {| status := 200; json := success |}
  ∧ (id ∉ ids_of (deleteThing universe id w).1 universe)
  ∧ deleteThing universe id (deleteThing universe id w).1
    = ((deleteThing universe id w).1, {| status := 200; json := success |}).
Proof.
  intros Hwf Hok Hid Hown. rewrite deleteThing_run_own by done. simpl.
  pose proof (wf_NoDup _ universe Hwf) as Hnd. unfold ids_of in *.
  rewrite things_of_stored. split; [done|]. split; [by apply splice_id_gone|].
  set (items := splice_id id (things_of w universe)).
  assert (ready universe (stored universe items (opened universe w))) as [Hwf1 Hopen1].
  { apply ready_stored; [by apply wf_opened | done | by apply splice_id_NoDup]. }
  rewrite deleteThing_run_own by done.
  rewrite (opened_registered (stored universe items (opened universe w))) by done.
  rewrite things_of_stored, stored_stored.
  by rewrite splice_id_absent by by apply splice_id_gone.
Qed.

(** X2. [DELETE /universe] on a universe that has been created never
    removes it: the directory holds [index.json], [rmdirSync] throws, the reply is
    404 and the records stay on disk. *)
Theorem deleteUniverse_created_not_found (w : World) (universe : string) :
  universe_name_ok universe = true → created w universe = true →
  deleteUniverse universe w
  = (set_universes (delete universe) w,
     {| status := 404; json := error Universe_not_found |}).
Proof.
  intros Hok Hcreated. rewrite deleteUniverse_run by done.
  unfold evicted, created in *.
  by destruct (dataDir w !! universe) as [[[items|]]|].
Qed.

(** ** The bearer token check *)

Lemma startsWith_spec s prefix :
  startsWith s prefix = true ↔ ∃ rest, s = prefix +:+ rest.
Proof.
  revert s. induction prefix as [|p prefix IH]; intros s; simpl.
  - split; [intros _; by exists s | done].
  - destruct s as [|c s]; simpl.
    + split; [done | by intros [rest [=]]].
    + rewrite andb_true_iff, bool_decide_eq_true, IH. split.
      * intros [-> [rest ->]]. by exists rest.
      * intros [rest [= -> ->]]. eauto.
Qed.

Lemma split_spaces_spaceless piece :
  spaceless piece = true → split_spaces piece = [piece].
Proof.
  induction piece as [|c piece IH]; simpl; [done|].
  rewrite andb_true_iff, negb_true_iff. intros [Hc Hpiece].
  by rewrite Hc, IH.
Qed.

Lemma split_spaces_app piece rest :
  spaceless piece = true →
  split_spaces (piece +:+ " " +:+ rest) = piece :: split_spaces rest.
Proof.
  induction piece as [|c piece IH]; simpl; [done|].
  rewrite andb_true_iff, negb_true_iff. intros [Hc Hpiece].
  by rewrite Hc, IH.
Qed.

Lemma split_spaces_nonempty s : split_spaces s ≠ [].
Proof.
  induction s as [|c s IH]; simpl; [done|].
  case_bool_decide; [done|]. by destruct (split_spaces s).
Qed.

Lemma split_spaces_head s piece pieces :
  split_spaces s = piece :: pieces →
  spaceless piece = true
  ∧ ((pieces = [] ∧ s = piece)
     ∨ ∃ rest, s = piece +:+ " " +:+ rest ∧ split_spaces rest = pieces).
Proof.
  revert piece pieces. induction s as [|c s IH]; intros piece pieces; simpl.
  - intros [= <- <-]. split; [done | by left].
  - case_bool_decide as Hc.
    + intros [= <- <-]. subst c. split; [done|]. right. by exists s.
    + destruct (split_spaces s) as [|piece' pieces'] eqn:Hs;
        [by destruct (split_spaces_nonempty s)|].
      intros [= <- <-]. destruct (IH _ _ eq_refl) as [Hpiece Hshape].
      split; [simpl; by rewrite bool_decide_eq_false_2|].
      destruct Hshape as [[-> ->] | (rest & -> & Hrest)]; [by left|].
      right. by exists rest.
Qed.

(** The requests that [authenticateBearerToken] lets through. *)
Lemma authenticate_next bearerToken authorization :
  authenticateBearerToken bearerToken authorization = next
  ↔ spaceless bearerToken = true
    ∧ ∃ authHeader,
        authorization = Some authHeader
        ∧ (authHeader = "Bearer " +:+ bearerToken
           ∨ ∃ rest, authHeader = "Bearer " +:+ bearerToken +:+ " " +:+ rest).
Proof.
  unfold authenticateBearerToken. split.
  - destruct authorization as [authHeader|]; [|done].
    change (default "" (Some authHeader)) with authHeader.
    change (truthy (Some authHeader)) with (negb (bool_decide (authHeader = ""))).
    destruct (bool_decide (authHeader = "")); [done|].
    destruct (startsWith authHeader "Bearer ") eqn:Hprefix; [|done].
    apply startsWith_spec in Hprefix as [rest ->].
    case_bool_decide as Htoken; [|done]. intros _.
    change (split_spaces ("Bearer " +:+ rest)) with ("Bearer" :: split_spaces rest)
      in Htoken.
    destruct (split_spaces rest) as [|piece pieces] eqn:Hrest; [done|].
    injection Htoken as ->.
    destruct (split_spaces_head _ _ _ Hrest) as [Hpiece Hshape].
    split; [done|]. eexists. split; [done|].
    destruct Hshape as [[_ ->] | (rest' & -> & _)]; [by left|].
    right. by exists rest'.
  - intros (Hpiece & authHeader & -> & Hshape).
    assert (split_spaces authHeader !! 1 = Some bearerToken
            ∧ startsWith authHeader "Bearer " = true
            ∧ authHeader ≠ "") as (Hsplit & Hprefix & Hne).
    { destruct Hshape as [-> | [rest ->]].
      - change (split_spaces ("Bearer " +:+ bearerToken))
          with ("Bearer" :: split_spaces bearerToken).
        rewrite split_spaces_spaceless by done.
        split; [done|]. split; [|done]. apply startsWith_spec. eauto.
      - change (split_spaces ("Bearer " +:+ bearerToken +:+ " " +:+ rest))
          with ("Bearer" :: split_spaces (bearerToken +:+ " " +:+ rest)).
        rewrite split_spaces_app by done.
        split; [done|]. split; [|done]. apply startsWith_spec. eauto. }
    change (default "" (Some authHeader)) with authHeader.
    change (truthy (Some authHeader)) with (negb (bool_decide (authHeader = ""))).
    rewrite bool_decide_eq_false_2 by done. rewrite Hprefix.
    by rewrite bool_decide_eq_true_2.
Qed.

(** X3. The bearer token check lets a request through exactly when its
    [Authorization] header is ["Bearer "] followed by the configured
    token, alone or followed by a space and anything; a configured token
    that holds a space therefore lets no request through.  The check
    answers 401 exactly when the header is missing or does not start with
    ["Bearer "]. *)
Theorem authenticateBearerToken_verdicts (bearerToken : string)
    (authorization : option string) :
  (authenticateBearerToken bearerToken authorization = next
   ↔ spaceless bearerToken = true
     ∧ ∃ authHeader,
         authorization = Some authHeader
         ∧ (authHeader = "Bearer " +:+ bearerToken
            ∨ ∃ rest, authHeader = "Bearer " +:+ bearerToken +:+ " " +:+ rest))
  ∧ (authenticateBearerToken bearerToken authorization = ERR_NO_AUTH_TOKEN
     ↔ ¬ ∃ rest, authorization = Some ("Bearer " +:+ rest)).
Proof.
  split; [apply authenticate_next|].
  unfold authenticateBearerToken.
  destruct authorization as [authHeader|]; [|by split; [intros _ [rest [=]]|]].
  change (default "" (Some authHeader)) with authHeader.
  change (truthy (Some authHeader)) with (negb (bool_decide (authHeader = ""))).
  destruct (startsWith authHeader "Bearer ") eqn:Hprefix.
  - apply startsWith_spec in Hprefix as [rest ->].
    rewrite bool_decide_eq_false_2 by done.
    split; [|intros []; by eauto]. by case_bool_decide.
  - rewrite orb_true_r. split; [|done]. intros _ [rest [= ->]].
    assert (startsWith ("Bearer " +:+ rest) "Bearer " = true)
      by (apply startsWith_spec; eauto).
    congruence.
Qed.

(** X4. The page ([GET /]) and every [OPTIONS] request are answered
    whatever the [Authorization] header is, also when there is none, and
    touch nothing.  Any other request reaches a route only with the
    bearer token: if the state changes, or the answer comes from a route,
    then one of the four routes matches the request, the request was
    served by [serve], and its [Authorization] header is ["Bearer "]
    followed by the token. *)
Theorem app_requires_bearer_token (bearerToken : string)
    (authorization : option string) (incoming : Incoming) (w : World) :
  app bearerToken authorization GetRoot w = (w, UI_page)
  ∧ app bearerToken authorization Preflight w = (w, Status_200)
  ∧ ((app bearerToken authorization incoming w).1 ≠ w
     ∨ (∃ reply, (app bearerToken authorization incoming w).2 = Routed reply) →
     (∃ req, incoming = ToRoute req
             ∧ app bearerToken authorization incoming w
               = ((serve req w).1, Routed (serve req w).2))
     ∧ spaceless bearerToken = true
     ∧ (∃ authHeader,
          authorization = Some authHeader
          ∧ (authHeader = "Bearer " +:+ bearerToken
             ∨ ∃ rest, authHeader = "Bearer " +:+ bearerToken +:+ " " +:+ rest))).
Proof.
  split; [done|]. split; [done|]. intros Hreached.
  assert (authenticateBearerToken bearerToken authorization = next
          ∧ ∃ req, incoming = ToRoute req) as [Hnext [req ->]].
  { unfold app in Hreached.
    destruct incoming as [| |req|];
      destruct (authenticateBearerToken bearerToken authorization);
      simpl in Hreached; try (by destruct Hreached as [? | [? ?]]);
      eauto. }
  pose proof (proj1 (authenticate_next _ _) Hnext) as [Hspaceless Hheader].
  split; [|done]. exists req. split; [done|].
  unfold app. rewrite Hnext. by destruct (serve req w).
Qed.

(** ** Replies of the routes *)

Lemma handler_status route w :
  stepping any_step (λ r, status r = 200) route →
  status (handler route w).2 = 200 ∨ status (handler route w).2 = 500.
Proof.
  intros Hroute. destruct (Hroute w) as [_ Hret]. unfold handler.
  destruct (route w) as [w' [reply|e]]; simpl; [left; by apply Hret | by right].
Qed.

Lemma respond_200 body :
  stepping any_step (λ r : Reply, status r = 200) (respond 200 body).
Proof. by apply stepping_ret; [apply _|]. Qed.

Lemma serve_accepted_status req w :
  accepts req = true → status (serve req w).2 ≠ 400.
Proof.
  intros Hacc.
  destruct req as [body|body|universe id|universe]; simpl in *.
  - rewrite emit_run by done.
    match goal with
    | |- status (handler ?route w).2 ≠ _ =>
        destruct (handler_status route w) as [-> | ->]; [|done..]
    end.
    eapply stepping_bind; [apply _ | apply any_step_stepping | intros index _].
    eapply stepping_bind; [apply _ | apply any_step_stepping | intros _ _].
    eapply stepping_bind; [apply _ | apply any_step_stepping | intros _ _].
    apply respond_200.
  - rewrite resonate_run by done.
    match goal with
    | |- status (handler ?route w).2 ≠ _ =>
        destruct (handler_status route w) as [-> | ->]; [|done..]
    end.
    eapply stepping_bind; [apply _ | apply any_step_stepping | intros index _].
    eapply stepping_bind; [apply _ | apply any_step_stepping | intros query _].
    eapply stepping_bind; [apply _ | apply any_step_stepping | intros results _].
    apply respond_200.
  - apply andb_true_iff in Hacc as [Hok Hid].
    apply negb_true_iff, bool_decide_eq_false in Hid.
    rewrite deleteThing_run by done.
    match goal with
    | |- status (handler ?route w).2 ≠ _ =>
        destruct (handler_status route w) as [-> | ->]; [|done..]
    end.
    eapply stepping_bind; [apply _ | apply any_step_stepping | intros index _].
    eapply stepping_bind; [apply _ | apply any_step_stepping | intros _ _].
    apply respond_200.
  - rewrite deleteUniverse_run by done. simpl.
    by destruct (dataDir w !! universe) as [[[items|]]|].
Qed.

Lemma serve_refused req w :
  accepts req = false →
  ∃ message, serve req w = (w, {| status := 400; json := error message |}).
Proof.
  intros Hacc. destruct req as [body|body|universe id|universe]; simpl in *.
  - by apply emit_refused.
  - by apply resonate_refused.
  - apply deleteThing_refused. apply andb_false_iff in Hacc as [?|Hid]; [by left|].
    right. by apply negb_false_iff, bool_decide_eq_true in Hid.
  - by apply deleteUniverse_refused.
Qed.

(** X5. A request that a route answers with 400 has had no effect: it
    failed one of the checks the route makes before it touches anything,
    and the state is the one before, so no universe was created, no
    embedding was requested and no record changed. *)
Theorem serve_rejects_without_effect (req : Request) (w : World) :
  status (serve req w).2 = 400 →
  accepts req = false ∧ (serve req w).1 = w.
Proof.
  intros H400.
  assert (accepts req = false) as Hacc.
  { destruct (accepts req) eqn:Hacc; [|done].
    by destruct (serve_accepted_status req w Hacc). }
  split; [done|]. by destruct (serve_refused req w Hacc) as [message ->].
Qed.

(** ** What [POST /resonate] leaves of the records *)

#[local] Instance things_kept_preorder : PreOrder things_kept.
Proof.
  split; [by intros w universe|].
  intros w1 w2 w3 H12 H23 universe. by rewrite H23, H12.
Qed.

Lemma things_kept_disk w w' : dataDir w' = dataDir w → things_kept w w'.
Proof. intros Hd universe. unfold things_of. by rewrite Hd. Qed.

Lemma things_kept_loadIndexData index :
  stepping things_kept (λ _, True) (call index loadIndexData).
Proof.
  intros w. split; [|done]. apply things_kept_disk. unfold call.
  destruct index as [name|]; [|done].
  destruct (universes w !! name) as [object|]; [|done].
  unfold loadIndexData. destruct (cached object); [done|].
  by destruct (dataDir w !! name) as [[[items|]]|].
Qed.

Lemma things_kept_getIndex universe :
  stepping things_kept (λ _, True) (getIndex universe).
Proof.
  intros w. split; [|done]. unfold getIndex, universes_get.
  destruct (universes w !! universe) as [index|]; [done|].
  destruct (inherited universe); [done|].
  unfold createIndex.
  destruct (isIndexCreated universe (dataDir w)) eqn:Hc; simpl; [done|].
  intros other. unfold things_of; simpl.
  destruct (decide (universe = other)) as [<-|Hne].
  - rewrite lookup_insert_eq. unfold isIndexCreated in Hc.
    by destruct (dataDir w !! universe) as [[[items|]]|].
  - by rewrite lookup_insert_ne.
Qed.

Lemma things_kept_getVector text :
  stepping things_kept (λ _, True) (getVector text).
Proof. intros w. rewrite getVector_run. by split. Qed.

(** X6. [POST /resonate] never changes a record: whatever the request and
    the state, the records of every universe are afterwards what they
    were. *)
Theorem resonate_keeps_records (body : ResonateBody.t) (w : World)
    (universe : string) :
  things_of (resonate body w).1 universe = things_of w universe.
Proof.
  unfold resonate. rewrite handler_fst.
  match goal with
  | |- things_of (?m _).1 _ = _ =>
      cut (stepping things_kept (λ _ : Reply, True) m);
      [intros H; apply H|]
  end.
  repeat match goal with
         | |- stepping _ _ (if ?b then _ else _) =>
             destruct b; [by apply stepping_ret; [apply _|] |]
         end.
  eapply stepping_bind; [apply _ | apply things_kept_getIndex | intros index _].
  eapply stepping_bind; [apply _ | apply things_kept_getVector | intros v _].
  eapply stepping_bind with (Q := λ _, True); [apply _ | |intros r _].
  - unfold queryItems.
    eapply stepping_bind; [apply _ | apply things_kept_loadIndexData | intros r _].
    by apply stepping_ret; [apply _|].
  - by apply stepping_ret; [apply _|].
Qed.

(** X12. [getIndex] caches: resolving a name a second time returns what
    the first resolution returned and leaves the state, registry and
    disk, as the first left it. *)
Theorem getIndex_twice (universe : string) (w : World) :
  getIndex universe (getIndex universe w).1 = getIndex universe w.
Proof.
  unfold getIndex at 2 3, universes_get.
  destruct (universes w !! universe) as [index|] eqn:Hreg.
  { simpl. unfold getIndex, universes_get. by rewrite Hreg. }
  destruct (inherited universe) eqn:Hinh.
  { simpl. unfold getIndex, universes_get. by rewrite Hreg, Hinh. }
  unfold createIndex.
  destruct (isIndexCreated universe (dataDir w)); simpl;
    unfold getIndex, universes_get; simpl; by rewrite lookup_insert_eq.
Qed.

(** ** Universes are never removed *)

#[local] Instance created_kept_preorder : PreOrder created_kept.
Proof.
  split; [by intros w universe|].
  intros w1 w2 w3 H12 H23 universe Hc. by apply H23, H12.
Qed.

Lemma keeps_files_loadIndexData : keeps_files loadIndexData.
Proof.
  intros folder object disk other Hc. unfold loadIndexData.
  destruct (cached object); [done|].
  by destruct (disk !! folder) as [[[items|]]|].
Qed.

Lemma keeps_files_saveIndex items : keeps_files (saveIndex items).
Proof.
  intros folder object disk other Hc. unfold saveIndex.
  destruct (disk !! folder) eqn:Hdir; simpl; [|done].
  unfold isIndexCreated in *. destruct (decide (folder = other)) as [<-|Hne].
  - by rewrite lookup_insert_eq.
  - by rewrite lookup_insert_ne.
Qed.

Lemma created_kept_disk w w' : dataDir w' = dataDir w → created_kept w w'.
Proof. intros Hd universe. unfold created. by rewrite Hd. Qed.

Lemma created_kept_call {A} index (method : Method A) :
  keeps_files method → stepping created_kept (λ _, True) (call index method).
Proof.
  intros Hkeeps w. split; [|done]. unfold call.
  destruct index as [name|]; [|done].
  destruct (universes w !! name) as [object|]; [|done].
  specialize (Hkeeps name object (dataDir w)).
  destruct (method name object (dataDir w)) as [[object' disk'] r]; simpl in *.
  intros other Hc. by apply Hkeeps.
Qed.

Lemma created_kept_getIndex universe :
  stepping created_kept (λ _, True) (getIndex universe).
Proof.
  intros w. split; [|done]. unfold getIndex, universes_get.
  destruct (universes w !! universe) as [index|]; [done|].
  destruct (inherited universe); [done|].
  unfold createIndex.
  destruct (isIndexCreated universe (dataDir w)) eqn:Hc; simpl;
    [by intros other Hother|].
  intros other Hother. unfold created in *; simpl.
  destruct (decide (universe = other)) as [<-|Hne].
  - by rewrite lookup_insert_eq.
  - by rewrite lookup_insert_ne.
Qed.

Lemma created_kept_deleteItem index id :
  stepping created_kept (λ _, True) (deleteItem index id).
Proof.
  eapply stepping_bind; [apply _ | |intros items _].
  - apply created_kept_call, keeps_files_loadIndexData.
  - apply created_kept_call, keeps_files_saveIndex.
Qed.

Lemma created_kept_insertItem index id v text :
  stepping created_kept (λ _, True) (insertItem index id v text).
Proof.
  eapply stepping_bind; [apply _ | |intros items _].
  { apply created_kept_call, keeps_files_loadIndexData. }
  eapply stepping_bind with (Q := λ _, True); [apply _ | |intros id' _].
  { destruct id; [by apply stepping_ret; [apply _|]|].
    intros w. by split; [apply created_kept_disk|]. }
  destruct (existsb _ items); [apply stepping_throw, _|].
  apply created_kept_call, keeps_files_saveIndex.
Qed.

Lemma created_kept_insertThing index t :
  stepping created_kept (λ _, True) (insertThing index t).
Proof.
  unfold insertThing.
  eapply stepping_bind with (Q := λ _, True); [apply _ | |intros v _].
  { intros w. rewrite getVector_run. by split; [apply created_kept_disk|]. }
  destruct (truthy (id t)); [|apply created_kept_insertItem].
  eapply stepping_bind; [apply _ | |intros items _].
  { apply created_kept_call, keeps_files_loadIndexData. }
  eapply stepping_bind with (Q := λ _, True); [apply _ | |intros _ _].
  - destruct (existsb _ items);
      [apply created_kept_deleteItem | by apply stepping_ret; [apply _|]].
  - apply created_kept_insertItem.
Qed.

(** X11. No request of the first server removes a universe: a universe
    that has been created is still there after any request, on any state;
    [DELETE /universe] included. *)
Theorem universes_are_never_removed (req : Request) (w : World)
    (universe : string) :
  created w universe = true → created (serve req w).1 universe = true.
Proof.
  revert universe. change (created_kept w (serve req w).1).
  destruct req as [body|body|universe' id|universe']; simpl.
  - unfold emit. rewrite handler_fst.
    match goal with
    | |- created_kept _ (?m _).1 =>
        cut (stepping created_kept (λ _ : Reply, True) m); [intros H; apply H|]
    end.
    repeat match goal with
           | |- stepping _ _ (if ?b then _ else _) =>
               destruct b; [by apply stepping_ret; [apply _|] |]
           end.
    eapply stepping_bind; [apply _ | apply created_kept_getIndex | intros index _].
    eapply stepping_bind with (Q := λ _, True); [apply _ | |intros _ _].
    { destruct (EmitBody.things body) as [things|].
      - apply stepping_Promise_all; [apply _|].
        apply Forall_fmap, Forall_forall. intros t _. apply created_kept_insertThing.
      - destruct (EmitBody.thing body) as [thing|]; [|by apply stepping_ret; [apply _|]].
        destruct (as_thing thing); simpl;
          [apply created_kept_insertThing | by apply stepping_ret; [apply _|]]. }
    eapply stepping_bind with (Q := λ _, True); [apply _ | |intros _ _].
    { destruct (truthy _);
        [apply created_kept_deleteItem | by apply stepping_ret; [apply _|]]. }
    by apply stepping_ret; [apply _|].
  - intros universe Hc. unfold created.
    unfold resonate in *. rewrite handler_fst in *.
    match goal with
    | |- context [(?m w).1] =>
        cut (stepping created_kept (λ _ : Reply, True) m);
        [intros H; by apply H|]
    end.
    repeat match goal with
           | |- stepping _ _ (if ?b then _ else _) =>
               destruct b; [by apply stepping_ret; [apply _|] |]
           end.
    eapply stepping_bind; [apply _ | apply created_kept_getIndex | intros index _].
    eapply stepping_bind with (Q := λ _, True); [apply _ | |intros v _].
    { intros w'. rewrite getVector_run. by split; [apply created_kept_disk|]. }
    eapply stepping_bind with (Q := λ _, True); [apply _ | |intros r _].
    + unfold queryItems.
      eapply stepping_bind; [apply _ | |intros r _].
      * apply created_kept_call, keeps_files_loadIndexData.
      * by apply stepping_ret; [apply _|].
    + by apply stepping_ret; [apply _|].
  - unfold deleteThing. rewrite handler_fst.
    match goal with
    | |- created_kept _ (?m _).1 =>
        cut (stepping created_kept (λ _ : Reply, True) m); [intros H; apply H|]
    end.
    repeat match goal with
           | |- stepping _ _ (if ?b then _ else _) =>
               destruct b; [by apply stepping_ret; [apply _|] |]
           end.
    eapply stepping_bind; [apply _ | apply created_kept_getIndex | intros index _].
    eapply stepping_bind; [apply _ | apply created_kept_deleteItem | intros _ _].
    by apply stepping_ret; [apply _|].
  - unfold deleteUniverse. rewrite handler_fst.
    repeat match goal with
           | |- created_kept _ ((if ?b then _ else _) _).1 =>
               destruct b; [done |]
           end.
    unfold try_catch, bind, delete_universes, rmdirSync; simpl.
    intros universe Hc. unfold created in *.
    destruct (dataDir w !! universe') as [[[items|]]|] eqn:Hdir; simpl; try done.
    destruct (decide (universe' = universe)) as [<-|Hne].
    + by rewrite Hdir in Hc.
    + by rewrite lookup_delete_ne.
Qed.

(** ** The ranking of [queryItems] *)

Lemma rank_insert_perm x ranked : rank_insert x ranked ≡ₚ x :: ranked.
Proof.
  induction ranked as [|y rest IH]; simpl; [done|].
  destruct (closer _ _); [done|]. by rewrite IH, Permutation_swap.
Qed.

Lemma fold_rank_perm l ranked :
  fold_left (λ ranked x, rank_insert x ranked) l ranked ≡ₚ ranked ++ l.
Proof.
  revert ranked. induction l as [|x l IH]; intros ranked; simpl.
  - by rewrite app_nil_r.
  - rewrite IH, rank_insert_perm. simpl. apply Permutation_middle.
Qed.

Lemma rank_perm l : rank l ≡ₚ l.
Proof. apply (fold_rank_perm l []). Qed.

Lemma matches_ranked query topK items :
  matches query topK items
  = to_match <$> take topK (rank (score_of query <$> items)).
Proof. done. Qed.

Lemma to_match_score_of query item :
  to_match (score_of query item) = match_of query item.
Proof. done. Qed.

Lemma elem_of_ranked query items x :
  x ∈ rank (score_of query <$> items) ↔ ∃ item, x = score_of query item ∧ item ∈ items.
Proof. by rewrite rank_perm, list_elem_of_fmap. Qed.

Lemma matches_elem query topK items m :
  m ∈ matches query topK items →
  ∃ item, item ∈ items ∧ m = match_of query item.
Proof.
  rewrite matches_ranked, list_elem_of_fmap. intros (x & -> & Hx).
  apply subseteq_take, elem_of_ranked in Hx as (item & -> & Hitem). eauto.
Qed.

Lemma matches_length query topK items :
  length (matches query topK items) = topK `min` length items.
Proof.
  rewrite matches_ranked, length_fmap, length_take.
  by rewrite (Permutation_length (rank_perm _)), length_fmap.
Qed.

Lemma ranked_ids query items :
  item_id ∘ scored_item <$> rank (score_of query <$> items) ≡ₚ item_id <$> items.
Proof. rewrite rank_perm. by rewrite <- list_fmap_compose. Qed.

Lemma matches_NoDup query topK items :
  NoDup (item_id <$> items) → NoDup (match_id <$> matches query topK items).
Proof.
  intros Hnd. rewrite matches_ranked, <- list_fmap_compose.
  change (match_id ∘ to_match) with (item_id ∘ scored_item).
  rewrite <- (ranked_ids query) in Hnd.
  apply (sublist_NoDup _ _ Hnd), fmap_sublist, sublist_take.
Qed.

(** X7. A successful [POST /resonate] reports as many results as asked
    for ([reach], 10 by default), or all the records of the universe if
    those are fewer; every result is a stored record, with its id, its
    text and its score against the query, and no record is reported
    twice. *)
Theorem resonate_results (body : ResonateBody.t) (w : World) (query : vector) :
  wf w → resonate_accepts body = true →
  inherited (default "" (ResonateBody.universe body)) = false →
  embedding (api_calls w) (default "" (ResonateBody.thing body)) = Some query →
  ∃ results,
    (resonate body w).2 = {| status := 200; json := success_results results |}
    ∧ length results
      = Z.to_nat (default 10%Z (ResonateBody.reach body))
        `min` length (things_of w (default "" (ResonateBody.universe body)))
    ∧ NoDup (match_id <$> results)
    ∧ ∀ m, m ∈ results →
        ∃ item, item ∈ things_of w (default "" (ResonateBody.universe body))
                ∧ m = match_of query item.
Proof.
  intros Hwf Hacc Hown Hquery. rewrite resonate_run_own by done.
  simpl. rewrite Hquery. simpl. eexists. split; [done|].
  split; [apply matches_length|]. split.
  - apply matches_NoDup, (wf_NoDup _ _ Hwf).
  - intros m. apply matches_elem.
Qed.

Section Ranking.
(** [closer] is a strict order, as [>] is on scores that are numbers. *)
Hypothesis closer_asymmetric : ∀ a b, closer a b = true → closer b a = false.
Hypothesis closer_transitive :
  ∀ a b c, closer a b = true → closer b c = true → closer a c = true.

Lemma Forall_rank_insert (P : Scored → Prop) x ranked :
  Forall P (rank_insert x ranked) ↔ P x ∧ Forall P ranked.
Proof. by rewrite rank_insert_perm, Forall_cons. Qed.

Lemma rank_insert_sorted x ranked :
  StronglySorted ranked_before ranked →
  StronglySorted ranked_before (rank_insert x ranked).
Proof.
  induction 1 as [|y rest Hrest IH Hy]; simpl.
  - repeat constructor.
  - destruct (closer (scored_score x) (scored_score y)) eqn:Hxy.
    + constructor; [by constructor|]. constructor; [by apply closer_asymmetric|].
      eapply Forall_impl; [exact Hy|]. intros z Hz. unfold ranked_before in *.
      destruct (closer (scored_score z) (scored_score x)) eqn:Hzx; [|done].
      by rewrite (closer_transitive _ _ _ Hzx Hxy) in Hz.
    + constructor; [done|]. by apply Forall_rank_insert.
Qed.

Lemma rank_sorted l : StronglySorted ranked_before (rank l).
Proof.
  unfold rank. generalize (SSorted_nil ranked_before).
  generalize (@nil Scored) as ranked.
  induction l as [|x l IH]; intros ranked Hranked; simpl; [done|].
  by apply IH, rank_insert_sorted.
Qed.

Lemma StronglySorted_lookup {A} (R : relation A) l i j a b :
  StronglySorted R l → i < j → l !! i = Some a → l !! j = Some b → R a b.
Proof.
  intros Hl. revert i j. induction Hl as [|x l Hl IH Hx]; intros i j Hij; [done|].
  destruct j as [|j]; [lia|]. destruct i as [|i]; simpl.
  - intros [= <-] Hb. rewrite Forall_forall in Hx.
    apply Hx. by eapply list_elem_of_lookup_2.
  - apply IH. lia.
Qed.

(** X8. For a strict order [closer], the results of a successful
    [POST /resonate] come best first, and they are the best: a record of
    the universe that is not reported is not closer to the query than any
    reported one. *)
Theorem resonate_best_first (body : ResonateBody.t) (w : World) (query : vector) :
  wf w → resonate_accepts body = true →
  inherited (default "" (ResonateBody.universe body)) = false →
  embedding (api_calls w) (default "" (ResonateBody.thing body)) = Some query →
  ∃ results,
    (resonate body w).2 = {| status := 200; json := success_results results |}
    ∧ (∀ i j a b, i < j → results !! i = Some a → results !! j = Some b →
         closer (match_closeness b) (match_closeness a) = false)
    ∧ (∀ item m,
         item ∈ things_of w (default "" (ResonateBody.universe body)) →
         item_id item ∉ match_id <$> results → m ∈ results →
         closer (similarity query (item_vector item)) (match_closeness m) = false).
Proof.
  intros Hwf Hacc Hown Hquery. rewrite resonate_run_own by done.
  simpl. rewrite Hquery. simpl. eexists. split; [done|].
  set (items := things_of w (default "" (ResonateBody.universe body))).
  set (topK := Z.to_nat (default 10%Z (ResonateBody.reach body))).
  rewrite matches_ranked.
  pose proof (rank_sorted (score_of query <$> items)) as Hsorted.
  rewrite <- (take_drop topK) in Hsorted. split.
  - intros i j a b Hij Ha Hb.
    apply list_lookup_fmap_Some in Ha as (x & -> & Hx).
    apply list_lookup_fmap_Some in Hb as (y & -> & Hy).
    apply StronglySorted_app_1_l in Hsorted.
    apply (StronglySorted_lookup _ _ _ _ _ _ Hsorted Hij Hx Hy).
  - intros item m Hitem Hid Hm.
    apply list_elem_of_fmap in Hm as (y & -> & Hy).
    assert (score_of query item ∈ rank (score_of query <$> items)) as Hin
      by (apply elem_of_ranked; eauto).
    rewrite <- (take_drop topK), elem_of_app in Hin.
    destruct Hin as [Hin|Hin].
    + destruct Hid. rewrite <- list_fmap_compose.
      apply list_elem_of_fmap. by exists (score_of query item).
    + apply (StronglySorted_app_1_elem_of _ _ _ _ _ Hsorted Hy Hin).
Qed.
End Ranking.

(** ** Emitting one thing, and taking it back *)

(** The run of [POST /emit] on one thing that carries an id. *)
Lemma emit_thing_run w universe x B v :
  wf w → universe_name_ok universe = true → inherited universe = false →
  x ≠ "" → embedding (api_calls w) B = Some v →
  emit {| EmitBody.universe := Some universe;
          EmitBody.thing := Some {| raw_text := Some B; raw_id := Some x |};
          EmitBody.things := None;
          EmitBody.replace := None |} w
  = (stored universe
       (splice_id x (things_of w universe) ++ [new_item x v B])
       (called (opened universe w)),
     {| status := 200; json := success |}).
Proof.
  intros Hwf Hok Hown Hx Hv.
  rewrite emit_run_own; [|unfold emit_accepts; simpl; rewrite Hok;
    by rewrite bool_decide_eq_false_2 by by apply universe_name_ok_nonempty|done].
  simpl. unfold handler, emit_on, bind, emit_items. simpl.
  destruct (counters_opened w universe) as [Hcalls _].
  erewrite (insertThing_run_id universe _ x v (opened universe w));
    [|by apply wf_opened | apply opened_open | by rewrite Hcalls | done..].
  simpl. by rewrite things_of_opened.
Qed.

(** X9. Emitting a thing under an id that is not in use and then deleting
    that id gives back the records the universe had: both requests
    succeed and the records are, in content and order, those from before
    the emit. *)
Theorem emit_then_deleteThing (w : World) (universe x B : string) (v : vector) :
  wf w → universe_name_ok universe = true → inherited universe = false →
  x ≠ "" → x ∉ ids_of w universe →
  embedding (api_calls w) B = Some v →
  let body := {| EmitBody.universe := Some universe;
                 EmitBody.thing := Some {| raw_text := Some B; raw_id := Some x |};
                 EmitBody.things := None;
                 EmitBody.replace := None |} in
  (emit body w).2 = {| status := 200; json := success |}
  ∧ things_of (emit body w).1 universe = things_of w universe ++ [new_item x v B]
  ∧ (deleteThing universe x (emit body w).1).2
    = {| status := 200; json := success |}
  ∧ things_of (deleteThing universe x (emit body w).1).1 universe
    = things_of w universe.
Proof.
  intros Hwf Hok Hown Hx Hfree Hv body. unfold body.
  rewrite (emit_thing_run w universe x B v) by done. simpl.
  rewrite splice_id_absent by done. rewrite things_of_stored.
  split; [done|]. split; [done|].
  rewrite deleteThing_run_own; [|apply wf_stored;
    [by apply wf_called, wf_opened | done |
     apply NoDup_appended; [apply (wf_NoDup _ _ Hwf) | done]] | done..].
  simpl. rewrite !things_of_stored. split; [done|].
  by apply splice_id_appended.
Qed.

(** X10. Emitting the same [{ id, text }] twice, with the provider giving
    the same vector both times, leaves the records as the first emit left
    them. *)
Theorem emit_same_thing_twice (w : World) (universe x B : string) (v : vector) :
  wf w → universe_name_ok universe = true → inherited universe = false →
  x ≠ "" →
  embedding (api_calls w) B = Some v →
  embedding (S (api_calls w)) B = Some v →
  let body := {| EmitBody.universe := Some universe;
                 EmitBody.thing := Some {| raw_text := Some B; raw_id := Some x |};
                 EmitBody.things := None;
                 EmitBody.replace := None |} in
  (emit body (emit body w).1).2 = {| status := 200; json := success |}
  ∧ things_of (emit body (emit body w).1).1 universe
    = things_of (emit body w).1 universe.
Proof.
  intros Hwf Hok Hown Hx Hv Hv' body. unfold body.
  rewrite (emit_thing_run w universe x B v) by done. simpl.
  pose proof (wf_NoDup _ universe Hwf) as Hnd. unfold ids_of in Hnd.
  destruct (counters_opened w universe) as [Hcalls _].
  rewrite (emit_thing_run _ universe x B v);
    [| |done|done|done|by simpl; rewrite Hcalls].
  - simpl. rewrite !things_of_stored. split; [done|].
    by rewrite splice_id_appended by by apply splice_id_gone.
  - apply wf_stored; [by apply wf_called, wf_opened | done |].
    apply NoDup_appended; [by apply splice_id_NoDup | by apply splice_id_gone].
Qed.

(** ** The revised server *)

#[local] Arguments insertItem_at : simpl never.
#[local] Arguments provider_getEmbeddings : simpl never.

Lemma revised_handler_fst route w : (revised_handler route w).1 = (route w).1.
Proof. unfold revised_handler. by destruct (route w) as [w' [reply|e]]. Qed.

Lemma revised_deleteUniverse_run universe w :
  universe_name_ok universe = true →
  revised_deleteUniverse universe w
  = (removed universe w,
     match dataDir w !! universe with
     | Some _ => {| revised_status := 200; revised_json := revised_success |}
     | None => {| revised_status := 404;
                  revised_json := revised_error (Common Universe_not_found) |}
     end).
Proof.
  intros Hok. unfold revised_deleteUniverse. rewrite Hok.
  rewrite bool_decide_eq_false_2 by by apply universe_name_ok_nonempty.
  unfold revised_handler, try_catch, bind, fs_access, fs_rm_recursive,
    delete_universes, removed; simpl.
  destruct (dataDir w !! universe) as [dir|] eqn:Hdir; simpl; [|done].
  by rewrite Hdir.
Qed.

Lemma wf_removed universe w : wf w → wf (removed universe w).
Proof.
  intros (Hreg & Hnd & Hinh). unfold removed.
  destruct (dataDir w !! universe) as [dir|] eqn:Hdir; [|done].
  repeat split; simpl.
  - intros name index. rewrite lookup_delete_Some. intros [Hne Hname].
    rewrite lookup_delete_ne by done. by eapply Hreg.
  - intros name items. rewrite lookup_delete_Some. intros [_ ?]. by eapply Hnd.
  - intros name Hname. rewrite lookup_delete_None. right. by apply Hinh.
Qed.

(** X13. The revised [DELETE /universe/:universe], on a name that passes
    the checks: it answers 404 exactly when no directory of that name
    exists, and then changes nothing; otherwise it answers 200 and the
    universe is gone, directory, records and cached handle, while every
    other universe is as it was.  Well-formed states stay well-formed. *)
Theorem revised_deleteUniverse_removes (universe : string) (w : World) :
  universe_name_ok universe = true →
  (revised_status (revised_deleteUniverse universe w).2 = 404
   ↔ dataDir w !! universe = None)
  ∧ (dataDir w !! universe = None → (revised_deleteUniverse universe w).1 = w)
  ∧ (is_Some (dataDir w !! universe) →
     (revised_deleteUniverse universe w).2
     = {| revised_status := 200; revised_json := revised_success |}
     ∧ dataDir (revised_deleteUniverse universe w).1 !! universe = None
     ∧ universes (revised_deleteUniverse universe w).1 !! universe = None
     ∧ things_of (revised_deleteUniverse universe w).1 universe = []
     ∧ others_kept universe w (revised_deleteUniverse universe w).1)
  ∧ (wf w → wf (revised_deleteUniverse universe w).1).
Proof.
  intros Hok. rewrite revised_deleteUniverse_run by done. simpl.
  split; [|split; [|split]].
  - by destruct (dataDir w !! universe).
  - unfold removed. by intros ->.
  - intros [dir Hdir]. unfold removed, things_of. rewrite Hdir. simpl.
    rewrite !lookup_delete_eq. split; [done|]. split; [done|].
    split; [done|]. split; [done|].
    intros other Hne. simpl. by rewrite !lookup_delete_ne.
  - apply wf_removed.
Qed.

Lemma same_calls_getIndex universe :
  stepping same_calls (λ _, True) (getIndex universe).
Proof.
  intros w. split; [|done]. unfold getIndex, universes_get, same_calls.
  destruct (universes w !! universe) as [index|]; [done|].
  destruct (inherited universe); [done|].
  unfold createIndex. by destruct (isIndexCreated universe (dataDir w)).
Qed.

Lemma revised_emit_refused body w :
  emit_accepts body = false →
  ∃ message,
    revised_emit body w
    = (w, {| revised_status := 400; revised_json := revised_error message |}).
Proof.
  unfold emit_accepts, revised_emit, revised_handler, revised_respond, ret.
  intros H.
  repeat match goal with
         | |- context [if negb ?b then _ else _] => destruct b; simpl; [|by eauto]
         | |- context [if ?b then _ else _] => destruct b; simpl; [by eauto|]
         end.
  done.
Qed.

Lemma revised_emit_run body w :
  emit_accepts body = true →
  is_Some (EmitBody.thing body) ∨ is_Some (EmitBody.things body) →
  revised_emit body w
  = revised_handler
      (let* index := getIndex (default "" (EmitBody.universe body)) in
       revised_emit_on index body (emit_items body)) w.
Proof.
  unfold emit_accepts, revised_emit. rewrite !andb_true_iff, negb_true_iff.
  intros ((((-> & ->) & ->) & ->) & ->) Hgiven. simpl.
  unfold revised_handler, revised_emit_on, emit_items, bind.
  destruct (getIndex _ w) as [w1 [index|e]]; [|done].
  destruct (EmitBody.things body) as [things|]; [done|].
  destruct (EmitBody.thing body) as [thing|]; [|by destruct Hgiven as [[]|[]]].
  simpl. by destruct (as_thing thing).
Qed.

Lemma revised_emit_run_empty body w :
  emit_accepts body = true →
  EmitBody.thing body = None → EmitBody.things body = None →
  revised_emit body w
  = revised_handler
      (let* index := getIndex (default "" (EmitBody.universe body)) in
       revised_respond 400
         (revised_error Either_thing_or_things_must_be_provided)) w.
Proof.
  unfold emit_accepts, revised_emit. rewrite !andb_true_iff, negb_true_iff.
  intros ((((-> & ->) & ->) & ->) & ->) Hthing Hthings. simpl.
  by rewrite Hthing, Hthings.
Qed.

(** X14. In the revised server the embeddings of a call are requested in
    one batch before anything is inserted: when the provider rejects the
    batch of an accepted emit call, the answer is 500 and no record of any
    universe has changed. *)
Theorem revised_emit_provider_failure (body : EmitBody.t) (w : World) :
  emit_accepts body = true →
  is_Some (EmitBody.thing body) ∨ is_Some (EmitBody.things body) →
  getEmbeddings (api_calls w) (text <$> emit_items body) = None →
  (revised_emit body w).2
  = {| revised_status := 500;
       revised_json := revised_error (Common Internal_server_error) |}
  ∧ ∀ universe, things_of (revised_emit body w).1 universe = things_of w universe.
Proof.
  intros Hacc Hgiven Hfail. rewrite revised_emit_run by done.
  unfold revised_handler.
  assert (∃ w' e,
            (let* index := getIndex (default "" (EmitBody.universe body)) in
             revised_emit_on index body (emit_items body)) w = (w', Throw e)
            ∧ things_kept w w') as (w' & e & -> & Hkept); [|by split].
  unfold bind at 1.
  pose proof (things_kept_getIndex (default "" (EmitBody.universe body)) w)
    as [Hkept _].
  pose proof (same_calls_getIndex (default "" (EmitBody.universe body)) w)
    as [Hcalls _].
  unfold same_calls in Hcalls.
  destruct (getIndex _ w) as [w1 [index|e]]; simpl in *; [|by eauto].
  unfold revised_emit_on, bind, provider_getEmbeddings.
  rewrite Hcalls, Hfail. eauto.
Qed.

(** X15. The revised [POST /emit] checks that a thing was given only
    after it has resolved the index: a call with neither [thing] nor
    [things] is answered 400, and yet the universe it names has been
    created. *)
Theorem revised_emit_without_items_creates (w : World) (body : EmitBody.t)
    (universe : string) :
  wf w →
  EmitBody.universe body = Some universe →
  universe_name_ok universe = true → inherited universe = false →
  EmitBody.thing body = None → EmitBody.things body = None →
  (revised_emit body w).2
  = {| revised_status := 400;
       revised_json := revised_error Either_thing_or_things_must_be_provided |}
  ∧ created (revised_emit body w).1 universe = true
  ∧ is_Some (universes (revised_emit body w).1 !! universe).
Proof.
  intros Hwf Hu Hok Hown Hthing Hthings.
  assert (emit_accepts body = true) as Hacc.
  { unfold emit_accepts. rewrite Hu, Hthing, Hthings. simpl. rewrite Hok.
    by rewrite bool_decide_eq_false_2 by by apply universe_name_ok_nonempty. }
  rewrite revised_emit_run_empty by done. rewrite Hu. simpl.
  unfold revised_handler, bind. rewrite getIndex_run by done. simpl.
  split; [done|]. split; [by apply created_opened | apply opened_open].
Qed.

Lemma queryItems_at_undefined index topK :
  stepping any_step (λ _, False) (queryItems_at index None topK).
Proof.
  intros w. split; [done|]. unfold queryItems_at, bind.
  by destruct (call index loadIndexData w) as [w' [items|e]].
Qed.

Lemma things_kept_queryItems_at index query topK :
  stepping things_kept (λ _, True) (queryItems_at index query topK).
Proof.
  unfold queryItems_at.
  eapply stepping_bind; [apply _ | apply things_kept_loadIndexData | intros r _].
  destruct query; [by apply stepping_ret; [apply _|] | apply stepping_throw, _].
Qed.

(** X17. The revised [POST /resonate] never succeeds: it reads element 0
    of the promise that [provider.getEmbeddings] returns, which is
    [undefined], and the index throws on that query vector.  A request
    that passes the checks is answered 500, any other 400; no record of
    any universe changes. *)
Theorem revised_resonate_never_succeeds (body : ResonateBody.t) (w : World) :
  revised_status (revised_resonate body w).2
  = (if resonate_accepts body then 500 else 400)
  ∧ ∀ universe,
      things_of (revised_resonate body w).1 universe = things_of w universe.
Proof.
  split.
  - unfold resonate_accepts, revised_resonate, revised_handler.
    repeat match goal with
           | |- context [if negb ?b then _ else _] => destruct b; simpl; [|done]
           | |- context [if ?b then _ else _] => destruct b; simpl; [done|]
           end.
    unfold bind at 1. destruct (getIndex _ w) as [w1 [index|e]]; [|done].
    unfold bind at 1, queryVector.
    unfold bind at 1.
    pose proof (queryItems_at_undefined index
                  (Z.to_nat (default 10%Z (ResonateBody.reach body)))) as Hnone.
    match goal with
    | |- context [queryItems_at index None ?k ?w'] =>
        destruct (Hnone w') as [_ Hret];
        destruct (queryItems_at index None k w') as [w2 [results|e]]
    end; [by destruct (Hret results)|done].
  - intros universe. unfold revised_resonate. rewrite revised_handler_fst.
    match goal with
    | |- things_of (?m _).1 _ = _ =>
        cut (stepping things_kept (λ _ : RevisedReply, True) m);
        [intros H; apply H|]
    end.
    repeat match goal with
           | |- stepping _ _ (if ?b then _ else _) =>
               destruct b; [by apply stepping_ret; [apply _|] |]
           end.
    eapply stepping_bind; [apply _ | apply things_kept_getIndex | intros index _].
    eapply stepping_bind with (Q := λ _, True); [apply _ | |intros v _].
    { intros w'. by split. }
    eapply stepping_bind; [apply _ | apply things_kept_queryItems_at | intros r _].
    by apply stepping_ret; [apply _|].
Qed.

Lemma appended_cons draws t things v vectors :
  appended draws (t :: things) (v :: vectors)
  = new_item (v4 draws) v (text t) :: appended (S draws) things vectors.
Proof.
  unfold appended. simpl. rewrite Nat.add_0_r. f_equal.
  apply imap_ext. intros k tv _. simpl. by rewrite Nat.add_succ_r.
Qed.

(** The loop of the revised [POST /emit] on things without ids: each is
    appended under the next id drawn. *)
Lemma insert_each_drawn universe vectors things :
  ∀ i w,
    ready universe w →
    Forall (λ t, truthy (id t) = false) things →
    length things ≤ length (drop i vectors) →
    NoDup (ids_of w universe
           ++ ((λ k, v4 (uuid_draws w + k)) <$> seq 0 (length things))) →
    ∃ w',
      insert_each (TheIndex universe) vectors i things w = (w', Return tt)
      ∧ ready universe w'
      ∧ things_of w' universe
        = things_of w universe
          ++ appended (uuid_draws w) things (drop i vectors).
Proof.
  induction things as [|t rest IH]; intros i w Hready Hids Hlen Hfresh.
  { exists w. simpl. unfold appended. simpl. by rewrite app_nil_r. }
  apply Forall_cons in Hids as [Hid Hids]. simpl in Hlen.
  destruct (drop i vectors) as [|v vs] eqn:Hdrop; [simpl in Hlen; lia|].
  assert (vectors !! i = Some v) as Hv.
  { rewrite <- (Nat.add_0_r i), <- lookup_drop. by rewrite Hdrop. }
  assert (drop (S i) vectors = vs) as Hdrop'.
  { rewrite <- (Nat.add_1_r i), <- drop_drop. by rewrite Hdrop. }
  destruct Hready as [Hwf Hopen].
  pose proof (ready_not_inherited _ _ (conj Hwf Hopen)) as Hown.
  simpl in Hfresh. rewrite Nat.add_0_r in Hfresh.
  rewrite <- fmap_S_seq, <- list_fmap_compose in Hfresh.
  apply NoDup_app in Hfresh as (Hnd & Hdisjoint & Hdraws).
  assert (v4 (uuid_draws w) ∉ ids_of w universe) as Hnew.
  { intros Hin. apply (Hdisjoint _ Hin). by left. }
  simpl. unfold bind at 1. rewrite Hid, Hv. unfold insertItem_at.
  rewrite insertItem_run_drawn by done. simpl.
  rewrite (proj2 (existsb_has_id_false _ _)) by done.
  set (w1 := stored universe
               (things_of w universe ++ [new_item (v4 (uuid_draws w)) v (text t)])
               (drawn w)).
  assert (ready universe w1) as Hready1.
  { apply (ready_stored (drawn w)); [done | done |]. by apply NoDup_appended. }
  destruct (IH (S i) w1) as (w' & Hrun & Hready' & Hthings); [done | done | | |].
  - rewrite Hdrop'. simpl in Hlen. lia.
  - unfold ids_of, w1. rewrite things_of_stored. simpl.
    rewrite fmap_app. simpl. rewrite <- app_assoc. simpl.
    apply NoDup_app. split; [done|]. split.
    + intros x Hx. apply Hdisjoint in Hx. intros Hx'. apply Hx.
      apply elem_of_cons in Hx' as [->|Hx']; [by left|]. right.
      apply list_elem_of_fmap in Hx' as (k & -> & Hk).
      apply list_elem_of_fmap. exists k. split; [|done].
      simpl. by rewrite Nat.add_succ_r.
    + apply NoDup_cons in Hdraws as [Hhead Htail]. apply NoDup_cons. split.
      * intros Hx. apply Hhead. apply list_elem_of_fmap in Hx as (k & Hk & Hin).
        apply list_elem_of_fmap. exists k. split; [|done].
        simpl. by rewrite Nat.add_succ_r.
      * erewrite list_fmap_ext; [exact Htail|].
        intros k x _. simpl. by rewrite Nat.add_succ_r.
  - exists w'. split; [done|]. split; [done|].
    rewrite Hthings. unfold w1 at 1. rewrite things_of_stored, <- app_assoc.
    by rewrite Hdrop', appended_cons.
Qed.

(** X16. The revised [POST /emit] inserts the things of a batch one after
    the other, in the order given: when none carries an id, the provider
    returns a vector for each and the ids the index draws are new and
    distinct, the call succeeds and the records are those from before
    followed by one record per thing: the k-th thing with the k-th vector
    under the k-th id drawn. *)
Theorem revised_emit_appends_in_order (w : World) (body : EmitBody.t)
    (vectors : list vector) :
  wf w → emit_accepts body = true →
  is_Some (EmitBody.thing body) ∨ is_Some (EmitBody.things body) →
  inherited (default "" (EmitBody.universe body)) = false →
  Forall (λ t, truthy (id t) = false) (emit_items body) →
  truthy (EmitBody.replace body) = false →
  getEmbeddings (api_calls w) (text <$> emit_items body) = Some vectors →
  length (emit_items body) ≤ length vectors →
  NoDup (ids_of w (default "" (EmitBody.universe body))
         ++ ((λ k, v4 (uuid_draws w + k))
             <$> seq 0 (length (emit_items body)))) →
  (revised_emit body w).2
  = {| revised_status := 200; revised_json := revised_success |}
  ∧ things_of (revised_emit body w).1 (default "" (EmitBody.universe body))
    = things_of w (default "" (EmitBody.universe body))
      ++ appended (uuid_draws w) (emit_items body) vectors.
Proof.
  intros Hwf Hacc Hgiven Hown Hids Hreplace Hvectors Hlen Hfresh.
  set (u := default "" (EmitBody.universe body)) in *.
  destruct (counters_opened w u) as [Hcalls Hdraws].
  destruct (insert_each_drawn u vectors (emit_items body) 0
              {| universes := universes (opened u w);
                 dataDir := dataDir (opened u w);
                 api_calls := S (api_calls w);
                 uuid_draws := uuid_draws (opened u w) |})
    as (w' & Hrun & Hready & Hthings).
  - split; [by apply wf_opened | apply opened_open].
  - done.
  - by rewrite drop_0.
  - simpl. rewrite Hdraws.
    change (ids_of _ u) with (ids_of (opened u w) u).
    unfold ids_of. by rewrite things_of_opened.
  - assert (revised_emit body w
            = (w', {| revised_status := 200; revised_json := revised_success |}))
      as ->.
    { rewrite revised_emit_run by done. fold u.
      unfold revised_handler, bind at 1. rewrite getIndex_run by done.
      unfold revised_emit_on, bind at 1, provider_getEmbeddings.
      rewrite Hcalls, Hvectors. unfold bind. by rewrite Hrun, Hreplace. }
    simpl. split; [done|].
    rewrite Hthings. simpl. rewrite Hdraws, drop_0.
    change (things_of _ u) with (things_of (opened u w) u) at 1.
    by rewrite things_of_opened.
Qed.

End Universe.

(** * Runs on a concrete provider

    The handlers instantiated with the provider, the id source and the
    similarity of [Demo]. *)

#[local] Abbreviation demo_emit := (@emit nat Z Demo.embedding Demo.v4).
#[local] Abbreviation demo_resonate :=
  (@resonate nat Z Demo.embedding Demo.similarity Demo.closer).
#[local] Abbreviation demo_deleteThing := (@deleteThing nat Z).
#[local] Abbreviation demo_deleteUniverse := (@deleteUniverse nat Z).
#[local] Abbreviation demo_fresh := (@fresh nat).
#[local] Abbreviation demo_serve :=
  (@serve nat Z Demo.embedding Demo.v4 Demo.similarity Demo.closer).

(** C1. The universe ["u"] is created by an emit and holds one record;
    [DELETE /universe/u] then answers 404 and removes only the cached
    handle: the record stays in [index.json], and a later resonate on
    ["u"] still returns the text emitted before. *)
Theorem deleteUniverse_fails_on_created_universe :
  let w1 := (demo_emit {| EmitBody.universe := Some "u";
                          EmitBody.thing :=
                            Some {| raw_text := Some "hello"; raw_id := None |};
                          EmitBody.things := None;
                          EmitBody.replace := None |} demo_fresh).1 in
  let w2 := (demo_deleteUniverse "u" w1).1 in
  universe_name_ok "u" = true
  ∧ created w1 "u" = true
  ∧ (demo_deleteUniverse "u" w1).2
    = {| status := 404; json := error Universe_not_found |}
  ∧ universes w2 !! "u" = None
  ∧ things_of w2 "u"
    = [ {| item_id := "uuid"; item_vector := 5; item_text := "hello" |} ]
  ∧ (demo_resonate {| ResonateBody.universe := Some "u";
                      ResonateBody.thing := Some "hello";
                      ResonateBody.reach := None |} w2).2
    = {| status := 200;
         json := success_results
                   [ {| match_closeness := 0%Z; match_thing := "hello";
                        match_id := "uuid" |} ] |}.
Proof. repeat split; vm_compute; reflexivity. Qed.

(** C8. ["constructor"] is a well-formed universe name, yet
    [DELETE /thing/constructor/x] answers 500, the first time and every
    time after: [universes["constructor"]] is the inherited
    [Object.prototype.constructor], which has no [deleteItem]. *)
Theorem deleteThing_fails_on_inherited_name :
  universe_name_ok "constructor" = true
  ∧ demo_deleteThing "constructor" "x" demo_fresh
    = (demo_fresh, {| status := 500; json := error Internal_server_error |})
  ∧ demo_deleteThing "constructor" "x"
      (demo_deleteThing "constructor" "x" demo_fresh).1
    = (demo_fresh, {| status := 500; json := error Internal_server_error |}).
Proof.
  assert (demo_deleteThing "constructor" "x" demo_fresh
          = (demo_fresh, {| status := 500; json := error Internal_server_error |}))
    as Hrun by (apply deleteThing_run_inherited; [apply wf_fresh | done..]).
  split; [done|]. split; [done|]. by rewrite Hrun.
Qed.

(** The state after [{ universe: "u", thing: { id: "x", text: "hello" } }]
    was emitted on a fresh server. *)
#[local] Abbreviation demo_one_record :=
  (demo_emit {| EmitBody.universe := Some "u";
                EmitBody.thing :=
                  Some {| raw_text := Some "hello"; raw_id := Some "x" |};
                EmitBody.things := None;
                EmitBody.replace := None |} demo_fresh).1.

Lemma wf_demo_one_record : wf demo_one_record.
Proof. apply emit_wf, wf_fresh. Qed.

(** A state in which memory and file disagree: the handle of ["u"] holds
    three records, its [index.json] only the first two.  The insertions of
    a call of two things leave such a state when the second insertion
    finds the update of the first in progress. *)
#[local] Abbreviation demo_emit_with := (@emit_with nat Z).
#[local] Abbreviation demo_ahead :=
  {| universes :=
       {[ "u" := {| cached := Some [ new_item "x" 5 "hello"; new_item "uuid" 1 "a";
                                     new_item "uuuid" 2 "bb" ] |} ]};
     dataDir :=
       {[ "u" := {| index_json := Some [ new_item "x" 5 "hello";
                                         new_item "uuid" 1 "a" ] |} ]};
     api_calls := 3; uuid_draws := 2 |}.

Lemma distinct_ids_demo_ahead : distinct_ids demo_ahead.
Proof.
  split; simpl.
  - intros name items Hdir. apply lookup_singleton_Some in Hdir as [_ [= <-]].
    apply NoDup_ListNoDup. repeat constructor; simpl; intuition discriminate.
  - intros name items Hopen. apply lookup_singleton_Some in Hopen as [_ [= <-]].
    apply NoDup_ListNoDup. repeat constructor; simpl; intuition discriminate.
Qed.

(** C2, at concrete inputs: ["bye"] is emitted under the id ["x"] that
    ["hello"] holds, once on the state that holds this one record and
    once on a state in which memory and file disagree. *)
Lemma emit_upserts_by_id_witness :
  let body := {| EmitBody.universe := Some "u";
                 EmitBody.thing :=
                   Some {| raw_text := Some "bye"; raw_id := Some "x" |};
                 EmitBody.things := None;
                 EmitBody.replace := None |} in
  ids_of demo_one_record "u" = ["x"]
  ∧ (demo_emit body demo_one_record).2 = {| status := 200; json := success |}
  ∧ filter (λ item, item_id item = "x")
      (things_of (demo_emit body demo_one_record).1 "u")
    = [new_item "x" 3 "bye"]
  ∧ length (ids_of (demo_emit body demo_one_record).1 "u")
    = length (ids_of demo_one_record "u")
  ∧ distinct_ids (demo_serve (Emit body) demo_ahead).1
  ∧ NoDup (ids_of (demo_serve (Emit body) demo_ahead).1 "u").
Proof.
  assert (ids_of demo_one_record "u" = ["x"]) as Hids by (vm_compute; reflexivity).
  split; [exact Hids|].
  pose proof (emit_upserts_by_id Demo.embedding Demo.v4 Demo.similarity Demo.closer
                demo_one_record "u" "x" "bye" 3 false) as H.
  destruct H as (H1 & H2 & H3 & _ & Hkept & _).
  - apply wf_demo_one_record.
  - vm_compute; reflexivity.
  - discriminate.
  - rewrite Hids. apply list_elem_of_singleton. reflexivity.
  - vm_compute; reflexivity.
  - split; [exact H1|]. split; [exact H2|]. split; [exact H3|].
    apply Hkept, distinct_ids_demo_ahead.
Defined.


(** C9, at a concrete input: deleting a thing of universe ["a"] leaves
    universe ["u"] alone. *)
Lemma other_universes_unchanged_witness :
  "u" ≠ "a"
  ∧ universes (demo_serve (DeleteThing "a" "x") demo_one_record).1 !! "u"
    = universes demo_one_record !! "u"
  ∧ dataDir (demo_serve (DeleteThing "a" "x") demo_one_record).1 !! "u"
    = dataDir demo_one_record !! "u"
  ∧ things_of (demo_serve (DeleteThing "a" "x") demo_one_record).1 "u"
    = things_of demo_one_record "u".
Proof.
  split; [discriminate|].
  apply (other_universes_unchanged Demo.embedding Demo.v4 Demo.similarity
           Demo.closer (DeleteThing "a" "x") demo_one_record "u").
  discriminate.
Defined.

(** C10, at a concrete input: the universe ["u"] holds one record and its
    handle is cached. *)
Lemma deleteUniverse_evicts_handle_witness :
  universe_name_ok "u" = true
  ∧ is_Some (universes demo_one_record !! "u")
  ∧ universes (demo_deleteUniverse "u" demo_one_record).1 !! "u" = None
  ∧ status (demo_deleteUniverse "u" demo_one_record).2 = 404
  ∧ ∃ w', getIndex "u" (demo_deleteUniverse "u" demo_one_record).1
          = (w', Return (TheIndex "u"))
          ∧ universes w' !! "u" = Some {| cached := None |}.
Proof.
  assert (is_Some (universes demo_one_record !! "u")) as Hopen
    by (vm_compute; eauto).
  split; [vm_compute; reflexivity|]. split; [exact Hopen|].
  destruct (@deleteUniverse_evicts_handle nat Z demo_one_record "u")
    as [Hgone Hnext].
  - vm_compute; reflexivity.
  - split; [exact Hgone|]. apply Hnext; [apply wf_demo_one_record | exact Hopen].
Defined.

(** C7: the reply to a successful emit of [{ id: "x", text: "hello" }]
    carries no id, although the stored id is ["x"]. *)
Lemma emit_reports_no_ids :
  let body := {| EmitBody.universe := Some "u";
                 EmitBody.thing :=
                   Some {| raw_text := Some "hello"; raw_id := Some "x" |};
                 EmitBody.things := None;
                 EmitBody.replace := None |} in
  (demo_emit body demo_fresh).2 = {| status := 200; json := success |}
  ∧ ids_of (demo_emit body demo_fresh).1 "u" = ["x"]
  ∧ reply_ids (demo_emit body demo_fresh).2 = []
  ∧ reply_ids (demo_emit body demo_fresh).2
    ≠ ids_of (demo_emit body demo_fresh).1 "u".
Proof. repeat split; vm_compute; (reflexivity || discriminate). Qed.

(** C7 (amended), at a concrete input. *)
Lemma emit_success_reports_status_only_witness :
  let body := {| EmitBody.universe := Some "u";
                 EmitBody.thing :=
                   Some {| raw_text := Some "hello"; raw_id := Some "x" |};
                 EmitBody.things := None;
                 EmitBody.replace := None |} in
  status (demo_emit body demo_fresh).2 = 200
  ∧ json (demo_emit body demo_fresh).2 = success
  ∧ reply_ids (demo_emit body demo_fresh).2 = [].
Proof.
  intros body. split; [vm_compute; reflexivity|].
  apply (emit_success_reports_status_only (score:=Z) Demo.embedding Demo.v4 body demo_fresh).
  vm_compute; reflexivity.
Defined.

(** C4: an emit call that names a universe and no item is answered with
    status 200, not rejected, and it changes the store: the universe
    ["u"] now exists. *)
Lemma emit_without_items_is_accepted :
  let body := {| EmitBody.universe := Some "u"; EmitBody.thing := None;
                 EmitBody.things := None; EmitBody.replace := None |} in
  (demo_emit body demo_fresh).2 = {| status := 200; json := success |}
  ∧ created demo_fresh "u" = false
  ∧ created (demo_emit body demo_fresh).1 "u" = true
  ∧ ¬ (status (demo_emit body demo_fresh).2 = 400
       ∧ (demo_emit body demo_fresh).1 = demo_fresh).
Proof.
  repeat split; try (vm_compute; reflexivity).
  intros [H _]. vm_compute in H. discriminate.
Qed.

(** C4 (amended), at a concrete input. *)
Lemma emit_without_items_succeeds_witness :
  let body := {| EmitBody.universe := Some "u"; EmitBody.thing := None;
                 EmitBody.things := Some []; EmitBody.replace := Some "x" |} in
  (demo_emit body demo_one_record).2 = {| status := 200; json := success |}
  ∧ api_calls (demo_emit body demo_one_record).1 = api_calls demo_one_record
  ∧ created (demo_emit body demo_one_record).1 "u" = true
  ∧ things_of (demo_emit body demo_one_record).1 "u"
    = splice_id "x" (things_of demo_one_record "u").
Proof.
  intros body.
  apply (emit_without_items_succeeds (score:=Z) Demo.embedding Demo.v4 demo_one_record body "u").
  - apply wf_demo_one_record.
  - reflexivity.
  - vm_compute; reflexivity.
  - vm_compute; reflexivity.
  - reflexivity.
  - right. reflexivity.
Defined.

(** C5: the provider rejects the second of two items; the reply is the
    generic 500 and the first item has been written all the same. *)
Lemma emit_provider_failure_writes_other_items :
  let body := {| EmitBody.universe := Some "u"; EmitBody.thing := None;
                 EmitBody.things :=
                   Some [ {| raw_text := Some "a"; raw_id := None |};
                          {| raw_text := Some "boom"; raw_id := None |} ];
                 EmitBody.replace := None |} in
  Demo.embedding 1 "boom" = None
  ∧ (demo_emit body demo_fresh).2
    = {| status := 500; json := error Internal_server_error |}
  ∧ things_of demo_fresh "u" = []
  ∧ things_of (demo_emit body demo_fresh).1 "u"
    = [ {| item_id := "uuid"; item_vector := 1; item_text := "a" |} ]
  ∧ things_of (demo_emit body demo_fresh).1 "u" ≠ things_of demo_fresh "u".
Proof. repeat split; vm_compute; (reflexivity || discriminate). Qed.

(** C5 (amended), at a concrete input: the provider rejects the only
    item. *)
Lemma emit_provider_failure_witness :
  let body := {| EmitBody.universe := Some "u";
                 EmitBody.thing :=
                   Some {| raw_text := Some "boom"; raw_id := Some "x" |};
                 EmitBody.things := None; EmitBody.replace := None |} in
  Demo.embedding (api_calls demo_one_record) "boom" = None
  ∧ (demo_emit body demo_one_record).2
    = {| status := 500; json := error Internal_server_error |}
  ∧ things_of (demo_emit body demo_one_record).1 "u"
    = things_of demo_one_record "u".
Proof.
  intros body. split; [reflexivity|].
  destruct (emit_provider_failure (score:=Z) Demo.embedding Demo.v4 demo_one_record body)
    as [Hreply Hkept].
  - apply wf_demo_one_record.
  - vm_compute; reflexivity.
  - exists 0, {| text := "boom"; id := Some "x" |}. split; reflexivity.
  - split; [exact Hreply|]. apply Hkept.
    intros [|k] t Hk; [|discriminate]. injection Hk as <-. reflexivity.
Defined.

(** C6: [DELETE /thing/u/x] on a server that never saw the universe
    ["u"] creates it. *)
Lemma deleteThing_creates_universe :
  created demo_fresh "u" = false
  ∧ universes demo_fresh !! "u" = None
  ∧ (demo_deleteThing "u" "x" demo_fresh).2 = {| status := 200; json := success |}
  ∧ created (demo_deleteThing "u" "x" demo_fresh).1 "u" = true
  ∧ universes (demo_deleteThing "u" "x" demo_fresh).1 !! "u"
    = Some {| cached := Some [] |}.
Proof. repeat split; vm_compute; reflexivity. Qed.

(** C6 (amended), at a concrete input. *)
Lemma universe_created_on_index_resolution_witness :
  created (demo_serve (DeleteThing "u" "x") demo_fresh).1 "u" = true
  ∧ (∀ universe other,
       created (demo_deleteUniverse universe demo_fresh).1 other = true →
       created demo_fresh other = true).
Proof.
  destruct (universe_created_on_index_resolution Demo.embedding Demo.v4
              Demo.similarity Demo.closer demo_fresh) as [Hcreates Hnot].
  - apply wf_fresh.
  - split; [|exact Hnot].
    apply (Hcreates (DeleteThing "u" "x")); [reflexivity | reflexivity |].
    intros universe. discriminate.
Defined.

(** X1, at a concrete input. *)
Lemma deleteThing_twice_witness :
  (demo_deleteThing "u" "x" demo_one_record).2
  = {| status := 200; json := success |}
  ∧ ("x" ∉ ids_of (demo_deleteThing "u" "x" demo_one_record).1 "u")
  ∧ demo_deleteThing "u" "x" (demo_deleteThing "u" "x" demo_one_record).1
    = ((demo_deleteThing "u" "x" demo_one_record).1,
       {| status := 200; json := success |}).
Proof.
  apply (@deleteThing_twice nat Z demo_one_record "u" "x").
  - apply wf_demo_one_record.
  - reflexivity.
  - discriminate.
  - reflexivity.
Defined.

(** X2, at a concrete input. *)
Lemma deleteUniverse_created_not_found_witness :
  demo_deleteUniverse "u" demo_one_record
  = (set_universes (delete "u") demo_one_record,
     {| status := 404; json := error Universe_not_found |}).
Proof.
  apply (@deleteUniverse_created_not_found nat Z demo_one_record "u").
  - reflexivity.
  - vm_compute; reflexivity.
Defined.

(** * Runs of the middleware chain and of the revised server *)

#[local] Abbreviation demo_app :=
  (@app nat Z Demo.embedding Demo.v4 Demo.similarity Demo.closer).
#[local] Abbreviation demo_resonate_body :=
  {| ResonateBody.universe := Some "u"; ResonateBody.thing := Some "hello";
     ResonateBody.reach := None |}.
#[local] Abbreviation demo_hello :=
  {| EmitBody.universe := Some "u";
     EmitBody.thing := Some {| raw_text := Some "hello"; raw_id := Some "x" |};
     EmitBody.things := None;
     EmitBody.replace := None |}.
#[local] Abbreviation demo_revised_emit :=
  (@revised_emit nat Z Demo.v4 Demo.getEmbeddings).
#[local] Abbreviation demo_revised_deleteUniverse := (@revised_deleteUniverse nat Z).

(** X4, at concrete inputs: the page and an [OPTIONS] request are
    answered without any [Authorization] header; a [DELETE /thing/u/x]
    that carries the token changes the state. *)
Lemma app_requires_bearer_token_witness :
  demo_app "secret" None GetRoot demo_fresh = (demo_fresh, UI_page)
  ∧ demo_app "secret" None Preflight demo_fresh = (demo_fresh, Status_200)
  ∧ (demo_app "secret" (Some "Bearer secret") (ToRoute (DeleteThing "u" "x"))
       demo_fresh).1 ≠ demo_fresh
  ∧ spaceless "secret" = true.
Proof.
  assert ((demo_app "secret" (Some "Bearer secret")
             (ToRoute (DeleteThing "u" "x")) demo_fresh).1 ≠ demo_fresh) as Hchanged.
  { intros H. apply (f_equal (λ w, created w "u")) in H.
    vm_compute in H. discriminate. }
  destruct (app_requires_bearer_token Demo.embedding Demo.v4 Demo.similarity
              Demo.closer "secret" None GetRoot demo_fresh)
    as (Hpage & Hoptions & _).
  destruct (app_requires_bearer_token Demo.embedding Demo.v4 Demo.similarity
              Demo.closer "secret" (Some "Bearer secret")
              (ToRoute (DeleteThing "u" "x")) demo_fresh)
    as (_ & _ & Hreached).
  destruct (Hreached (or_introl Hchanged)) as (_ & Hspaceless & _).
  split; [exact Hpage|]. split; [exact Hoptions|].
  split; [exact Hchanged | exact Hspaceless].
Defined.

(** X5, at a concrete input: a [POST /emit] that gives both [thing] and
    [things] is answered 400 on the state that holds one record. *)
Lemma serve_rejects_without_effect_witness :
  let req := Emit {| EmitBody.universe := Some "u";
                     EmitBody.thing :=
                       Some {| raw_text := Some "a"; raw_id := None |};
                     EmitBody.things :=
                       Some [ {| raw_text := Some "b"; raw_id := None |} ];
                     EmitBody.replace := Some "x" |} in
  status (demo_serve req demo_one_record).2 = 400
  ∧ (demo_serve req demo_one_record).1 = demo_one_record.
Proof.
  intros req.
  assert (status (demo_serve req demo_one_record).2 = 400) as H400 by reflexivity.
  split; [exact H400|].
  apply (serve_rejects_without_effect Demo.embedding Demo.v4 Demo.similarity
           Demo.closer req demo_one_record H400).
Defined.

(** X7, at a concrete input. *)
Lemma resonate_results_witness :
  ∃ results,
    (demo_resonate demo_resonate_body demo_one_record).2
    = {| status := 200; json := success_results results |}
    ∧ length results = 10 `min` length (things_of demo_one_record "u")
    ∧ NoDup (match_id <$> results)
    ∧ ∀ m, m ∈ results →
        ∃ item, item ∈ things_of demo_one_record "u"
                ∧ m = match_of Demo.similarity 5 item.
Proof.
  apply (resonate_results Demo.embedding Demo.similarity Demo.closer
           demo_resonate_body demo_one_record 5).
  - apply wf_demo_one_record.
  - reflexivity.
  - reflexivity.
  - reflexivity.
Defined.

Lemma demo_closer_asymmetric a b :
  Demo.closer a b = true → Demo.closer b a = false.
Proof. unfold Demo.closer. rewrite Z.ltb_lt, Z.ltb_ge. lia. Qed.

Lemma demo_closer_transitive a b c :
  Demo.closer a b = true → Demo.closer b c = true → Demo.closer a c = true.
Proof. unfold Demo.closer. rewrite !Z.ltb_lt. lia. Qed.

(** The state after ["a"], ["hello"] and ["abc"] were emitted, in this
    order and one call each, under the ids ["1"], ["2"] and ["3"]. *)
#[local] Abbreviation demo_thing i s :=
  {| EmitBody.universe := Some "u";
     EmitBody.thing := Some {| raw_text := Some s; raw_id := Some i |};
     EmitBody.things := None;
     EmitBody.replace := None |}.
#[local] Abbreviation demo_three_records :=
  (demo_emit (demo_thing "3" "abc")
     (demo_emit (demo_thing "2" "hello")
        (demo_emit (demo_thing "1" "a") demo_fresh).1).1).1.

Lemma wf_demo_three_records : wf demo_three_records.
Proof. do 3 apply emit_wf. apply wf_fresh. Qed.

(** X8, at a concrete input: the query ["hello"] with [reach: 2] on three
    records.  The two results are ["hello"] and then ["abc"], and ["a"],
    the record left out, is not closer than either. *)
Lemma resonate_best_first_witness :
  let body := {| ResonateBody.universe := Some "u";
                 ResonateBody.thing := Some "hello";
                 ResonateBody.reach := Some 2%Z |} in
  things_of demo_three_records "u"
  = [ new_item "1" 1 "a"; new_item "2" 5 "hello"; new_item "3" 3 "abc" ]
  ∧ ∃ results,
      (demo_resonate body demo_three_records).2
      = {| status := 200; json := success_results results |}
      ∧ results
        = [ {| match_closeness := 0%Z; match_thing := "hello"; match_id := "2" |};
            {| match_closeness := (-2)%Z; match_thing := "abc"; match_id := "3" |} ]
      ∧ (∀ i j a b, i < j → results !! i = Some a → results !! j = Some b →
           Demo.closer (match_closeness b) (match_closeness a) = false)
      ∧ (∀ item m,
           item ∈ things_of demo_three_records "u" →
           item_id item ∉ match_id <$> results → m ∈ results →
           Demo.closer (Demo.similarity 5 (item_vector item)) (match_closeness m)
           = false).
Proof.
  intros body. split; [vm_compute; reflexivity|].
  destruct (resonate_best_first Demo.embedding Demo.similarity Demo.closer
              demo_closer_asymmetric demo_closer_transitive
              body demo_three_records 5)
    as (results & Hreply & Hsorted & Hbest);
    [apply wf_demo_three_records | reflexivity | reflexivity | reflexivity |].
  exists results. split; [exact Hreply|]. split; [|split; [exact Hsorted | exact Hbest]].
  assert ((demo_resonate body demo_three_records).2
          = {| status := 200;
               json := success_results
                 [ {| match_closeness := 0%Z; match_thing := "hello";
                      match_id := "2" |};
                   {| match_closeness := (-2)%Z; match_thing := "abc";
                      match_id := "3" |} ] |}) as Hrun
    by (vm_compute; reflexivity).
  rewrite Hrun in Hreply. injection Hreply as <-. reflexivity.
Defined.

(** X9, at a concrete input. *)
Lemma emit_then_deleteThing_witness :
  (demo_emit demo_hello demo_fresh).2 = {| status := 200; json := success |}
  ∧ things_of (demo_emit demo_hello demo_fresh).1 "u"
    = things_of demo_fresh "u" ++ [new_item "x" 5 "hello"]
  ∧ (demo_deleteThing "u" "x" (demo_emit demo_hello demo_fresh).1).2
    = {| status := 200; json := success |}
  ∧ things_of (demo_deleteThing "u" "x" (demo_emit demo_hello demo_fresh).1).1 "u"
    = things_of demo_fresh "u".
Proof.
  apply (emit_then_deleteThing (score:=Z) Demo.embedding Demo.v4 demo_fresh
           "u" "x" "hello" 5).
  - apply wf_fresh.
  - reflexivity.
  - reflexivity.
  - discriminate.
  - intros Hin. apply list_elem_of_In in Hin. exact Hin.
  - reflexivity.
Defined.

(** X10, at a concrete input. *)
Lemma emit_same_thing_twice_witness :
  (demo_emit demo_hello (demo_emit demo_hello demo_fresh).1).2
  = {| status := 200; json := success |}
  ∧ things_of (demo_emit demo_hello (demo_emit demo_hello demo_fresh).1).1 "u"
    = things_of (demo_emit demo_hello demo_fresh).1 "u".
Proof.
  apply (emit_same_thing_twice (score:=Z) Demo.embedding Demo.v4 demo_fresh
           "u" "x" "hello" 5).
  - apply wf_fresh.
  - reflexivity.
  - reflexivity.
  - discriminate.
  - reflexivity.
  - reflexivity.
Defined.

(** X11, at a concrete input: [DELETE /universe/u] on the universe that
    holds one record. *)
Lemma universes_are_never_removed_witness :
  created demo_one_record "u" = true
  ∧ created (demo_serve (DeleteUniverse "u") demo_one_record).1 "u" = true.
Proof.
  assert (created demo_one_record "u" = true) as Hcreated
    by (vm_compute; reflexivity).
  split; [exact Hcreated|].
  apply (universes_are_never_removed Demo.embedding Demo.v4 Demo.similarity
           Demo.closer (DeleteUniverse "u") demo_one_record "u" Hcreated).
Defined.

(** X13, at a concrete input: the revised [DELETE /universe/u] on the
    universe that holds one record. *)
Lemma revised_deleteUniverse_removes_witness :
  is_Some (dataDir demo_one_record !! "u")
  ∧ (demo_revised_deleteUniverse "u" demo_one_record).2
    = {| revised_status := 200; revised_json := revised_success |}
  ∧ things_of (demo_revised_deleteUniverse "u" demo_one_record).1 "u" = []
  ∧ universes (demo_revised_deleteUniverse "u" demo_one_record).1 !! "u" = None.
Proof.
  assert (is_Some (dataDir demo_one_record !! "u")) as Hdir
    by (vm_compute; eauto).
  split; [exact Hdir|].
  destruct (@revised_deleteUniverse_removes nat Z "u" demo_one_record)
    as (_ & _ & Hremoved & _).
  - reflexivity.
  - destruct (Hremoved Hdir) as (Hreply & _ & Hhandle & Hthings & _).
    split; [exact Hreply|]. split; [exact Hthings | exact Hhandle].
Defined.

(** X14, at a concrete input: the provider rejects the batch. *)
Lemma revised_emit_provider_failure_witness :
  let body := {| EmitBody.universe := Some "u"; EmitBody.thing := None;
                 EmitBody.things :=
                   Some [ {| raw_text := Some "a"; raw_id := None |};
                          {| raw_text := Some "boom"; raw_id := None |} ];
                 EmitBody.replace := None |} in
  (demo_revised_emit body demo_one_record).2
  = {| revised_status := 500;
       revised_json := revised_error (Common Internal_server_error) |}
  ∧ ∀ universe,
      things_of (demo_revised_emit body demo_one_record).1 universe
      = things_of demo_one_record universe.
Proof.
  intros body.
  apply (revised_emit_provider_failure (score:=Z) Demo.v4 Demo.getEmbeddings
           body demo_one_record).
  - reflexivity.
  - right. eexists. reflexivity.
  - vm_compute; reflexivity.
Defined.

(** X15, at a concrete input. *)
Lemma revised_emit_without_items_creates_witness :
  let body := {| EmitBody.universe := Some "u"; EmitBody.thing := None;
                 EmitBody.things := None; EmitBody.replace := None |} in
  created demo_fresh "u" = false
  ∧ (demo_revised_emit body demo_fresh).2
    = {| revised_status := 400;
         revised_json := revised_error Either_thing_or_things_must_be_provided |}
  ∧ created (demo_revised_emit body demo_fresh).1 "u" = true
  ∧ is_Some (universes (demo_revised_emit body demo_fresh).1 !! "u").
Proof.
  intros body. split; [reflexivity|].
  apply (revised_emit_without_items_creates (score:=Z) Demo.v4 Demo.getEmbeddings
           demo_fresh body "u").
  - apply wf_fresh.
  - reflexivity.
  - reflexivity.
  - reflexivity.
  - reflexivity.
  - reflexivity.
Defined.

(** X16, at a concrete input: two things without ids. *)
Lemma revised_emit_appends_in_order_witness :
  let body := {| EmitBody.universe := Some "u"; EmitBody.thing := None;
                 EmitBody.things :=
                   Some [ {| raw_text := Some "a"; raw_id := None |};
                          {| raw_text := Some "bb"; raw_id := None |} ];
                 EmitBody.replace := None |} in
  (demo_revised_emit body demo_one_record).2
  = {| revised_status := 200; revised_json := revised_success |}
  ∧ things_of (demo_revised_emit body demo_one_record).1 "u"
    = things_of demo_one_record "u"
      ++ [ new_item "uuid" 1 "a"; new_item "uuuid" 2 "bb" ].
Proof.
  intros body.
  apply (revised_emit_appends_in_order (score:=Z) Demo.v4 Demo.getEmbeddings
           demo_one_record body [1; 2]).
  - apply wf_demo_one_record.
  - reflexivity.
  - right. eexists. reflexivity.
  - reflexivity.
  - repeat constructor.
  - reflexivity.
  - vm_compute; reflexivity.
  - simpl. lia.
  - change (NoDup ["x"; "uuid"; "uuuid"]).
    apply NoDup_ListNoDup. repeat constructor; simpl; intuition discriminate.
Defined.
